(** * Harmony Search: a shallow embedding of [HarmonySearch.py]

    The class [HarmonySearch] of
    [src/optimisation_algorithms/Heuristic/HarmonySearch.py] is embedded
    method by method.

    - A float is a rational ([Q]): every finite double is one.  There is no
      NaN and no infinity, so a run in which a sum overflows is not
      covered.  The two places where the program computes with
      floats are not computed exactly: a uniform draw is whatever the
      generator returns for the requested range, and the sum of [+=] is
      whatever the machine's addition returns; both are functions of the
      environment [machine], of which theorems assume only what they say.
    - The objective [f] is a Python callable: it returns an [int] or a
      [float] (or NumPy's [int64] or [float64]), or raises.  Every call of
      it is logged.  Its results are stored in a buffer of the type of the
      first; the cast is exact on floats and on numbers of magnitude at
      most [2^53], which is what the theorems about stored results assume
      ([plain_values]).
    - NumPy arrays live in a store of mutable two-dimensional arrays
      addressed by locations, so that aliasing, [deepcopy] and in-place row
      assignment are visible.  Memory is not bounded: an array of a shape
      NumPy accepts is allocated.
    - A computation returns a value or raises an exception; either way it
      leaves a world behind. *)

From Stdlib Require Import QArith Qabs Lqa Lia ZArith.
From stdpp Require Import base list.

Local Open Scope Q_scope.

(** ** Python values *)

(** Python's [x < y] on floats. *)
Definition Qltb (x y : Q) : bool := negb (Qle_bool y x).

(** What the objective returns: a Python [int] or a [float]. *)
Inductive pyval : Type :=
  | PyInt (z : Z)
  | PyFloat (q : Q).

(** The number a Python value stands for. *)
Definition value (v : pyval) : Q :=
  match v with
  | PyInt z => inject_Z z
  | PyFloat q => q
  end.

(** The exceptions of the program; [ObjectiveError] is whatever the
    objective raises, [Unallocated] a location that holds no array. *)
Inductive exn : Type :=
  | ValueError
  | OverflowError
  | IndexError
  | ObjectiveError (code : nat)
  | Unallocated.

Inductive result (A : Type) : Type :=
  | Ok (a : A)
  | Raised (e : exn).
Arguments Ok {A} a.
Arguments Raised {A} e.

(** ** Store, environment and the computation monad *)

(** A harmony is a one-dimensional float array, a harmony memory the contents
    of a two-dimensional one (a list of rows). *)
Abbreviation harmony := (list Q) (only parsing).
Abbreviation array2 := (list (list Q)) (only parsing).

(** Arrays are allocated in a store; a location is an index into it. *)
Abbreviation loc := nat (only parsing).

(** What the program does not compute itself. *)
Record machine : Type := Machine {
  (* draw [k] of the generator, as [np.random.rand()] returns it *)
  rng_samples : nat -> Q;
  (* draw [k] of the generator, as [np.random.uniform(low, high)] returns it *)
  rng_uniform : nat -> Q -> Q -> Q;
  (* the sum of two doubles, as the machine rounds it *)
  float_add : Q -> Q -> Q
}.

Record world : Type := World {
  heap : list array2;        (* the allocated two-dimensional arrays *)
  env : machine;
  rng_pos : nat;             (* how many draws were consumed *)
  calls : list (list Q)      (* the arguments of the calls of [f], in order *)
}.

Definition with_heap (h : list array2) (w : world) : world :=
  World h (env w) (rng_pos w) (calls w).

Definition with_pos (p : nat) (w : world) : world :=
  World (heap w) (env w) p (calls w).

Definition with_calls (c : list (list Q)) (w : world) : world :=
  World (heap w) (env w) (rng_pos w) c.

(** Computations read and update the world; they return or raise. *)
Definition M (A : Type) : Type := world -> result A * world.

Definition ret {A} (a : A) : M A := fun w => (Ok a, w).

Definition raise {A} (e : exn) : M A := fun w => (Raised e, w).

Definition bind {A B} (m : M A) (k : A -> M B) : M B :=
  fun w => match m w with
           | (Ok a, w') => k a w'
           | (Raised e, w') => (Raised e, w')
           end.

Notation "x <- c1 ;; c2" := (bind c1 (fun x => c2))
  (at level 100, c1 at next level, right associativity).
Notation "c1 ;; c2" := (bind c1 (fun _ => c2))
  (at level 100, right associativity).

(** [for x in xs: body(x)] *)
Fixpoint for_each {A} (xs : list A) (body : A -> M unit) : M unit :=
  match xs with
  | [] => ret tt
  | x :: xs' => body x ;; for_each xs' body
  end.

(** [for x in xs: acc = body(acc, x)] *)
Fixpoint fold_each {A B} (xs : list A) (body : B -> A -> M B) (acc : B) : M B :=
  match xs with
  | [] => ret acc
  | x :: xs' => acc' <- body acc x ;; fold_each xs' body acc'
  end.

(** [for _ in range(n): vars = body(vars)], the loop's local variables
    threaded through the iterations. *)
Fixpoint repeat_loop {A} (n : nat) (body : A -> M A) (vars : A) : M A :=
  match n with
  | O => ret vars
  | S n' => vars' <- body vars ;; repeat_loop n' body vars'
  end.

(** Python's [range(n)] for an integer [n]: empty when [n <= 0]. *)
Definition range (n : Z) : list nat := seq 0 (Z.to_nat n).

(** *** Store primitives *)

Definition read_array (l : loc) : M array2 :=
  fun w => match heap w !! l with
           | Some a => (Ok a, w)
           | None => (Raised Unallocated, w)
           end.

Definition write_array (l : loc) (a : array2) : M unit :=
  fun w => match heap w !! l with
           | Some _ => (Ok tt, with_heap (<[l := a]> (heap w)) w)
           | None => (Raised Unallocated, w)
           end.

Definition alloc_array (a : array2) : M loc :=
  fun w => (Ok (length (heap w)), with_heap (heap w ++ [a]) w).

(** [a[i]] on a Python sequence or a one-dimensional array: [IndexError]
    out of range (indices here are never negative). *)
Definition index {A} (xs : list A) (i : nat) : M A :=
  match xs !! i with
  | Some x => ret x
  | None => raise IndexError
  end.

(** A call of the objective: logged, then its outcome. *)
Definition call (func : harmony -> result pyval) (r : harmony) : M pyval :=
  fun w => (func r, with_calls (calls w ++ [r]) w).

(** ** The NumPy operations the class uses

    Modelled from NumPy's documented behaviour; they are library code and
    not part of the repository.  The machine is taken to have memory for
    every array whose size NumPy accepts. *)

(** [copy.deepcopy(hm)]: a fresh array with the same contents. *)
Definition deepcopy (hm : loc) : M loc :=
  a <- read_array hm ;; alloc_array a.

(** [len(hm)]: the number of rows. *)
Definition len (hm : loc) : M nat :=
  a <- read_array hm ;; ret (length a).

(** [np.random.rand()]: the generator's next draw, from the half-open unit
    interval. *)
Definition np_random_rand : M Q :=
  fun w => (Ok (rng_samples (env w) (rng_pos w)), with_pos (S (rng_pos w)) w).

(** The least magnitude that rounds to an infinite double. *)
Definition float_overflow : Q := inject_Z (2 ^ 1024 - 2 ^ 970).

(** [np.isfinite(high - low)], the difference taken in doubles. *)
Definition finite_range (low high : Q) : bool :=
  Qltb (Qabs (high - low)) float_overflow.

(** One draw of [np.random.uniform(low, high)]. *)
Definition uniform_draw (low high : Q) : M Q :=
  fun w => (Ok (rng_uniform (env w) (rng_pos w) low high), with_pos (S (rng_pos w)) w).

Fixpoint uniform_draws (low high : Q) (n : nat) : M (list Q) :=
  match n with
  | O => ret []
  | S n' => x <- uniform_draw low high ;;
            xs <- uniform_draws low high n' ;;
            ret (x :: xs)
  end.

(** [np.random.uniform(low, high, n)] for a natural [n]: [OverflowError]
    when the range is not finite, otherwise a one-dimensional array of [n]
    draws. *)
Definition np_random_uniform (low high : Q) (n : nat) : M (list Q) :=
  if finite_range low high then uniform_draws low high n
  else raise OverflowError.

(** The rows of a two-dimensional array of draws, filled in row-major
    order. *)
Fixpoint uniform_rows (low high : Q) (rows cols : nat) : M array2 :=
  match rows with
  | O => ret []
  | S rows' => r <- uniform_draws low high cols ;;
               rs <- uniform_rows low high rows' cols ;;
               ret (r :: rs)
  end.

(** The largest array index ([intp]) and the size of a double in bytes. *)
Definition max_intp : Z := (2 ^ 63 - 1)%Z.
Definition itemsize : Z := 8%Z.

(** NumPy allocates a [rows x cols] array of doubles: no dimension is
    negative or beyond [intp], and the number of bytes, a product that
    leaves out the dimensions that are zero, does not exceed [intp]. *)
Definition valid_shape (rows cols : Z) : bool :=
  ((0 <=? rows) && (0 <=? cols) && (rows <=? max_intp) && (cols <=? max_intp)
   && (Z.max 1 rows * Z.max 1 cols * itemsize <=? max_intp))%Z.

(** [np.random.uniform(low, high, (rows, cols))]: [OverflowError] when the
    range is not finite, then [ValueError] on a dimension that is negative
    or too large, otherwise a freshly allocated array of draws. *)
Definition np_random_uniform_2d (low high : Q) (rows cols : Z) : M loc :=
  if finite_range low high then
    if valid_shape rows cols then
      a <- uniform_rows low high (Z.to_nat rows) (Z.to_nat cols) ;;
      alloc_array a
    else raise ValueError
  else raise OverflowError.

(** Broadcasting a one-dimensional value to a row of [n] entries: the same
    length is taken as it is, length one is repeated, anything else is a
    [ValueError]. *)
Definition broadcast_to (src : list Q) (n : nat) : M (list Q) :=
  if decide (length src = n) then ret src
  else match src with
       | [x] => ret (replicate n x)
       | _ => raise ValueError
       end.

(** [row[b] = vals] for a one-dimensional [row] and a boolean scalar [b],
    which NumPy takes as a zero-dimensional mask and not as an integer:
    [row[True]] selects the whole row (as a [1 x d] array), [row[False]]
    selects nothing (a [0 x d] array); [vals] is broadcast to the
    selection. *)
Definition setitem_bool (row : harmony) (b : bool) (vals : list Q) : M harmony :=
  vs <- broadcast_to vals (length row) ;;
  ret (if b then vs else row).

(** The in-place sum of [row[b] += vals]: the selection [row[b]] plus the
    broadcast [vals], each sum rounded by the machine, written back to the
    selection. *)
Definition iadd_bool (row : harmony) (b : bool) (vals : list Q) : M harmony :=
  vs <- broadcast_to vals (length row) ;;
  fun w => (Ok (if b then zip_with (float_add (env w)) row vs else row), w).

(** The C cast of a double to an integer truncates toward zero. *)
Definition trunc (q : Q) : Z := (Qnum q ÷ Z.pos (Qden q))%Z.

(** Storing [v] in a buffer whose dtype is that of [first]: an [int64]
    buffer truncates a float, a [float64] buffer takes an integer as it is.
    This is what NumPy stores for floats and for numbers of magnitude at
    most [2^53]; larger integers are rounded or refused and larger floats
    do not fit [int64]. *)
Definition cast_to (first v : pyval) : Q :=
  match first with
  | PyFloat _ => value v
  | PyInt _ =>
      match v with
      | PyInt z => inject_Z z
      | PyFloat q => inject_Z (trunc q)
      end
  end.

(** [np.apply_along_axis(func, 1, arr)] for a scalar-valued [func]:
    [ValueError] when [arr] has no row; otherwise [func] is called on the
    first row, a result buffer with one slot per row and the dtype of that
    first result is allocated, and the slots are filled by index, every
    later result cast to the buffer's dtype.  An exception of [func]
    propagates. *)
Definition fill_slot (func : harmony -> result pyval) (arr : array2) (first : pyval)
    (buff : list Q) (i : nat) : M (list Q) :=
  r <- index arr i ;;
  v <- call func r ;;
  ret (<[i := cast_to first v]> buff).

Definition apply_along_axis_1 (func : harmony -> result pyval) (arr : array2)
  : M (list Q) :=
  match arr with
  | [] => raise ValueError
  | r0 :: _ =>
      first <- call func r0 ;;
      fold_each (seq 1 (length arr - 1)) (fill_slot func arr first)
                (<[0%nat := cast_to first first]> (replicate (length arr) 0))
  end.

(** [np.argmax] and [np.argmin] of a one-dimensional array: the first index
    holding the largest (smallest) value; [ValueError] on an empty array. *)
Fixpoint argmax_from (xs : list Q) (i best_i : nat) (best : Q) : nat :=
  match xs with
  | [] => best_i
  | x :: xs' => if Qltb best x then argmax_from xs' (S i) i x
                else argmax_from xs' (S i) best_i best
  end.

Fixpoint argmin_from (xs : list Q) (i best_i : nat) (best : Q) : nat :=
  match xs with
  | [] => best_i
  | x :: xs' => if Qltb x best then argmin_from xs' (S i) i x
                else argmin_from xs' (S i) best_i best
  end.

Definition np_argmax (xs : list Q) : M nat :=
  match xs with
  | [] => raise ValueError
  | x :: xs' => ret (argmax_from xs' 1 0 x)
  end.

Definition np_argmin (xs : list Q) : M nat :=
  match xs with
  | [] => raise ValueError
  | x :: xs' => ret (argmin_from xs' 1 0 x)
  end.

(** ** The class *)

(** The attributes set by [__init__]. *)
Record HarmonySearch : Type := {
  f : harmony -> result pyval;
  d : Z;
  hms : Z;
  hmcr : Q;
  par : Q;
  bw : Q;
  max_iter : Z;
  rand_min : Q;
  rand_max : Q
}.

(** [__init__] (lines 37-59): the arguments are stored as they are given,
    without validation; [max_iter], [rand_min] and [rand_max] are optional
    and default to [10**5], [0] and [1]. *)
Definition init (f : list Q -> result pyval) (d hms : Z) (hmcr par bw : Q)
    (max_iter : option Z) (rand_min rand_max : option Q) : HarmonySearch :=
  {| f := f; d := d; hms := hms; hmcr := hmcr; par := par; bw := bw;
     max_iter := default (10 ^ 5)%Z max_iter;
     rand_min := default 0 rand_min;
     rand_max := default 1 rand_max |}.

Section Methods.

Variable self : HarmonySearch.

(** [generate_hm] (line 74) *)
Definition generate_hm : M loc :=
  np_random_uniform_2d (rand_min self) (rand_max self) (hms self) (d self).

(** [eval] (line 89) *)
Definition eval (hm : loc) : M (list Q) :=
  a <- read_array hm ;; apply_along_axis_1 (f self) a.

(** [improvise] (lines 110-116).  [improvise_row] is the body of its loop
    (lines 113-114).  In [new_hm[row][c] = v] Python evaluates the
    right-hand side [v] before the subscript [c]; in [new_hm[row][c] += v]
    it evaluates the subscript first.  [new_hm[row]] is a view: writing to
    it writes to [new_hm]. *)
Definition improvise_row (new_hm : loc) (row : nat) : M unit :=
  vals <- np_random_uniform (rand_min self) (rand_max self) 1 ;;
  u <- np_random_rand ;;
  a <- read_array new_hm ;;
  r <- index a row ;;
  r' <- setitem_bool r (Qltb (hmcr self) u) vals ;;
  write_array new_hm (<[row := r']> a) ;;
  u2 <- np_random_rand ;;
  a2 <- read_array new_hm ;;
  r2 <- index a2 row ;;
  vals2 <- np_random_uniform (- bw self) (bw self) 1 ;;
  r2' <- iadd_bool r2 (Qltb (par self) u2) vals2 ;;
  write_array new_hm (<[row := r2']> a2).

Definition improvise (hm : loc) : M loc :=
  new_hm <- deepcopy hm ;;
  n <- len hm ;;
  for_each (seq 0 n) (improvise_row new_hm) ;;
  ret new_hm.

(** [change_hm] (lines 134-143).  The row assignment copies the values of
    the row of [new_hm] into the row of [old_hm]. *)
Definition change_hm (old_hm new_hm : loc) : M loc :=
  old_results <- eval old_hm ;;
  new_results <- eval new_hm ;;
  old_worst_i <- np_argmax old_results ;;
  new_best_i <- np_argmin new_results ;;
  new_best <- index new_results new_best_i ;;
  old_worst <- index old_results old_worst_i ;;
  (if Qltb new_best old_worst then
     src <- read_array new_hm ;;
     r <- index src new_best_i ;;
     dst <- read_array old_hm ;;
     r0 <- index dst old_worst_i ;;
     r' <- broadcast_to r (length r0) ;;
     write_array old_hm (<[old_worst_i := r']> dst)
   else ret tt) ;;
  ret old_hm.

(** [find_harmony] (lines 167-176).  The loop rebinds the local variables
    [hm] and [results]. *)
Definition find_harmony : M harmony :=
  hm <- generate_hm ;;
  results <- eval hm ;;
  vars <- repeat_loop (length (range (max_iter self)))
      (fun '(hm, results) =>
         new_hm <- improvise hm ;;
         hm <- change_hm hm new_hm ;;
         results <- eval hm ;;
         ret (hm, results))
      (hm, results) ;;
  let '(hm, results) := vars in
  best_i <- np_argmin results ;;
  a <- read_array hm ;;
  index a best_i.

End Methods.

(** * Specification vocabulary *)

(** ** Shapes, maxima and minima *)

(** An array of [rows] rows of [cols] entries each. *)
Definition shape (rows cols : nat) (a : list (list Q)) : Prop :=
  length a = rows /\ Forall (fun r => length r = cols) a.

(** [i] is the first index of [xs] that holds a largest value. *)
Definition first_max_index (xs : list Q) (i : nat) : Prop :=
  exists m, xs !! i = Some m /\
    (forall y, y ∈ xs -> y <= m) /\
    (forall j y, (j < i)%nat -> xs !! j = Some y -> y < m).

(** [i] is the first index of [xs] that holds a smallest value. *)
Definition first_min_index (xs : list Q) (i : nat) : Prop :=
  exists m, xs !! i = Some m /\
    (forall y, y ∈ xs -> m <= y) /\
    (forall j y, (j < i)%nat -> xs !! j = Some y -> m < y).

(** [m] is the largest (smallest) value of the fitness vector [xs]. *)
Definition max_of (xs : list Q) (m : Q) : Prop :=
  m ∈ xs /\ forall y, y ∈ xs -> y <= m.

Definition min_of (xs : list Q) (m : Q) : Prop :=
  m ∈ xs /\ forall y, y ∈ xs -> m <= y.

(** The indices [np.argmax] and [np.argmin] return on a non-empty vector. *)
Definition worst_index (xs : list Q) : nat :=
  match xs with
  | [] => 0
  | x :: xs' => argmax_from xs' 1 0 x
  end.

Definition best_index (xs : list Q) : nat :=
  match xs with
  | [] => 0
  | x :: xs' => argmin_from xs' 1 0 x
  end.

(** ** The objective *)

(** What [func] returns on [r], where it returns. *)
Definition outcome (func : list Q -> result pyval) (r : list Q) : pyval :=
  match func r with
  | Ok v => v
  | Raised _ => PyInt 0
  end.

(** The fitness of a harmony: the number [func] returns on it. *)
Definition fitness (func : list Q -> result pyval) (r : list Q) : Q :=
  value (outcome func r).

(** [func] returns on every row of [a]. *)
Definition returns_on (func : list Q -> result pyval) (a : list (list Q)) : Prop :=
  forall r, r ∈ a -> exists v, func r = Ok v.

(** [func] returns on every row of [cols] entries. *)
Definition defined_on (func : list Q -> result pyval) (cols : nat) : Prop :=
  forall r, length r = cols -> exists v, func r = Ok v.

(** [func] returns a float on every row of [cols] entries. *)
Definition float_valued (func : list Q -> result pyval) (cols : nat) : Prop :=
  forall r, length r = cols -> exists q, func r = Ok (PyFloat q).

(** A number of magnitude at most [2^53]: as an [int] it fits [int64] and
    converts to a double exactly, as a float it truncates to such an
    [int]. *)
Definition modest (v : pyval) : Prop :=
  Qabs (value v) <= inject_Z (2 ^ 53).

(** The results of [func] on the rows of [a] are stored as the cast below
    stores them: they are floats throughout, so that nothing is cast, or
    modest throughout, so that every cast and every comparison is exact up
    to the truncation. *)
Definition plain_values (func : list Q -> result pyval) (a : list (list Q)) : Prop :=
  (forall r v, r ∈ a -> func r = Ok v -> exists q, v = PyFloat q) \/
  (forall r v, r ∈ a -> func r = Ok v -> modest v).

(** The same of every row of [cols] entries. *)
Definition plain_results (func : list Q -> result pyval) (cols : nat) : Prop :=
  (forall r v, length r = cols -> func r = Ok v -> exists q, v = PyFloat q) \/
  (forall r v, length r = cols -> func r = Ok v -> modest v).

(** The vector [np.apply_along_axis] stores for the rows [a]: every result
    cast to the dtype of the first. *)
Definition results (func : list Q -> result pyval) (a : list (list Q)) : list Q :=
  match a with
  | [] => []
  | r0 :: _ => (fun r => cast_to (outcome func r0) (outcome func r)) <$> a
  end.

(** ** The environment *)

(** Every draw of [rand()] lies in the half-open unit interval. *)
Definition unit_samples (e : machine) : Prop :=
  forall k, 0 <= rng_samples e k /\ rng_samples e k < 1.

(** Every draw of [uniform(low, high)] lies between [low] and [high]
    (NumPy draws from [[low, high)]; rounding may return [high]). *)
Definition uniform_in_range (e : machine) : Prop :=
  forall k low high, low <= high ->
    low <= rng_uniform e k low high /\ rng_uniform e k low high <= high.

(** The [n] uniform draws made from position [p] on. *)
Definition draws (e : machine) (low high : Q) (p n : nat) : list Q :=
  (fun k => rng_uniform e k low high) <$> seq p n.

Fixpoint drawn_rows (e : machine) (low high : Q) (p rows cols : nat) : list (list Q) :=
  match rows with
  | O => []
  | S rows' => draws e low high p cols :: drawn_rows e low high (p + cols) rows' cols
  end.

(** ** The effect of the methods on array contents *)

Section Effects.

Variable self : HarmonySearch.

(** What one pass of the loop body makes of row [r], given the value [v]
    drawn for the replacement, the draw [u] compared with [hmcr], the draw
    [u2] compared with [par] and the offset [off] drawn for the shift. *)
Definition row_update (e : machine) (v u u2 off : Q) (r : list Q) : list Q :=
  let r1 := if Qltb (hmcr self) u then replicate (length r) v else r in
  if Qltb (par self) u2 then (fun x => float_add e x off) <$> r1 else r1.

(** The pass reads its four draws from position [p] on. *)
Definition improvised_row (e : machine) (p : nat) (r : list Q) : list Q :=
  row_update e (rng_uniform e p (rand_min self) (rand_max self))
             (rng_samples e (S p)) (rng_samples e (S (S p)))
             (rng_uniform e (S (S (S p))) (- bw self) (bw self)) r.

Fixpoint improvised_rows (e : machine) (p : nat) (rows : list (list Q))
  : list (list Q) :=
  match rows with
  | [] => []
  | r :: rows' => improvised_row e p r :: improvised_rows e (p + 4) rows'
  end.

(** The contents [change_hm] leaves in [old_hm], for the contents [a] of
    [old_hm] and [b] of [new_hm] before the call. *)
Definition replaced (a b : list (list Q)) : list (list Q) :=
  let old_results := results (f self) a in
  let new_results := results (f self) b in
  let wi := worst_index old_results in
  let bi := best_index new_results in
  match old_results !! wi, new_results !! bi, b !! bi with
  | Some old_worst, Some new_best, Some rb =>
      if Qltb new_best old_worst then <[wi := rb]> a else a
  | _, _, _ => a
  end.

(** The memory after [n] iterations of the search loop that start with
    contents [a] and the generator at position [p]. *)
Definition next_memory (e : machine) (p : nat) (a : list (list Q)) : list (list Q) :=
  replaced a (improvised_rows e p a).

Fixpoint memory_after (e : machine) (n p : nat) (a : list (list Q)) : list (list Q) :=
  match n with
  | O => a
  | S n' => memory_after e n' (p + 4 * length a) (next_memory e p a)
  end.

(** The rows the objective is called on during those [n] iterations, in
    order: each iteration evaluates the memory and the improvised memory
    (inside [change_hm]) and then the updated memory. *)
Fixpoint calls_during (e : machine) (n p : nat) (a : list (list Q)) : list (list Q) :=
  match n with
  | O => []
  | S n' => a ++ improvised_rows e p a ++ next_memory e p a
            ++ calls_during e n' (p + 4 * length a) (next_memory e p a)
  end.

(** The body of the loop of [find_harmony]. *)
Definition iteration (vars : nat * list Q) : M (nat * list Q) :=
  let '(hm, results) := vars in
  new_hm <- improvise self hm ;;
  hm <- change_hm self hm new_hm ;;
  results <- eval self hm ;;
  ret (hm, results).

End Effects.

(** ** Improvisation as the specification words it

    Follows the words of section 4.3 of the specification, not the source:
    every coordinate of every row has decisions of its own.  For a
    coordinate holding [x], a draw [u] is compared with [hmcr] and, when
    [u > hmcr], that coordinate is replaced with a fresh uniform draw [v];
    independently a draw [u2] is compared with [par] and, when [u2 > par],
    a uniform offset [off] from [[-bw, bw]] is added to that coordinate.
    The four draws of a coordinate are read in the order in which the
    source reads the four draws of a row. *)

Section PerCoordinate.

Variable self : HarmonySearch.

Definition coordinate_update (e : machine) (v u u2 off x : Q) : Q :=
  let x1 := if Qltb (hmcr self) u then v else x in
  if Qltb (par self) u2 then float_add e x1 off else x1.

Fixpoint per_coordinate_row (e : machine) (p : nat) (r : list Q) : list Q :=
  match r with
  | [] => []
  | x :: r' =>
      coordinate_update e (rng_uniform e p (rand_min self) (rand_max self))
                        (rng_samples e (S p)) (rng_samples e (S (S p)))
                        (rng_uniform e (S (S (S p))) (- bw self) (bw self)) x
      :: per_coordinate_row e (p + 4) r'
  end.

Fixpoint per_coordinate_rows (e : machine) (p : nat) (rows : list (list Q))
  : list (list Q) :=
  match rows with
  | [] => []
  | r :: rows' =>
      per_coordinate_row e p r :: per_coordinate_rows e (p + 4 * length r) rows'
  end.

End PerCoordinate.

(** ** Concrete searches *)

(** The sum of squares of floats is a float: the objective of the
    specification's regression test. *)
Definition sphere (x : list Q) : result pyval :=
  Ok (PyFloat (foldr (fun c acc => c * c + acc) 0 x)).

(** [min(1, abs(x[0]))]: Python's [min] returns the [int] [1] where the
    magnitude reaches it and the float magnitude elsewhere; [x[0]] raises
    on an empty harmony. *)
Definition clipped (x : list Q) : result pyval :=
  match x with
  | [] => Raised IndexError
  | x0 :: _ => if Qle_bool 1 (Qabs x0) then Ok (PyInt 1) else Ok (PyFloat (Qabs x0))
  end.

(** A sequence of draws: the tenths [0, 7, 4, 1, 8, 5, 2, 9, 6, 3, 0, ...]. *)
Definition example_samples (k : nat) : Q := Z.of_nat ((7 * k) mod 10) # 10.

(** A machine that scales those draws to the range and adds exactly. *)
Definition example_machine : machine :=
  {| rng_samples := example_samples;
     rng_uniform := fun k low high => low + (high - low) * example_samples k;
     float_add := Qplus |}.

Definition example_search (iterations : Z) : HarmonySearch :=
  {| f := sphere; d := 2; hms := 2; hmcr := 1 # 2; par := 3 # 10; bw := 1 # 2;
     max_iter := iterations; rand_min := 0; rand_max := 1 |}.

(** The same search with the clipped objective on harmonies of one entry. *)
Definition clipped_search (rows iterations : Z) : HarmonySearch :=
  {| f := clipped; d := 1; hms := rows; hmcr := 1 # 2; par := 3 # 10; bw := 1 # 2;
     max_iter := iterations; rand_min := 0; rand_max := 2 |}.

(** A search whose sampling range is wider than the doubles. *)
Definition overflowing_search (iterations : Z) : HarmonySearch :=
  {| f := sphere; d := 1; hms := 1; hmcr := 1 # 2; par := 3 # 10; bw := 1 # 2;
     max_iter := iterations;
     rand_min := - inject_Z (2 ^ 1023); rand_max := inject_Z (2 ^ 1023) |}.

Definition example_world (h : list (list (list Q))) : world :=
  World h example_machine 0 [].

(** Two memories of two harmonies each. *)
Definition example_old : list (list Q) := [[3; 4]; [1; 1]].
Definition example_new : list (list Q) := [[5; 5]; [0; 1]].
Definition example_tie : list (list Q) := [[5; 5]; [4; 3]].

(** Array contents with every entry in lowest terms, for reading off
    computed results. *)
Definition lowest_terms (a : list (list Q)) : list (list Q) := map (map Qred) a.

(** The search of the examples with both rates raised to one. *)
Definition copying_search (iterations : Z) : HarmonySearch :=
  {| f := sphere; d := 2; hms := 2; hmcr := 1; par := 1; bw := 1 # 2;
     max_iter := iterations; rand_min := 0; rand_max := 1 |}.

(** A search whose shift range is wider than the doubles. *)
Definition wide_shift_search (iterations : Z) : HarmonySearch :=
  {| f := sphere; d := 1; hms := 1; hmcr := 1 # 2; par := 3 # 10;
     bw := inject_Z (2 ^ 1023); max_iter := iterations;
     rand_min := 0; rand_max := 1 |}.

(** * Properties *)

(** ** Comparisons and truncation *)

Lemma Qltb_lt (x y : Q) : Qltb x y = true <-> x < y.
Proof.
  unfold Qltb. rewrite negb_true_iff, <- not_true_iff_false, Qle_bool_iff.
  split; [apply Qnot_le_lt | apply Qlt_not_le].
Qed.

Lemma Qltb_ge (x y : Q) : Qltb x y = false <-> y <= x.
Proof.
  unfold Qltb. rewrite negb_false_iff. apply Qle_bool_iff.
Qed.

Lemma trunc_inject_Z z : trunc (inject_Z z) = z.
Proof. unfold trunc. simpl. apply Z.quot_1_r. Qed.

Lemma quot_le_cross (a b c e : Z) :
  (0 < b -> 0 < e -> a * e <= c * b -> a ÷ b <= c ÷ e)%Z.
Proof.
  intros Hb He H.
  pose proof (Z.quot_rem' a b) as Ha.
  pose proof (Z.quot_rem' c e) as Hc.
  set (qa := (a ÷ b)%Z) in *. set (qc := (c ÷ e)%Z) in *.
  set (ra := Z.rem a b) in *. set (rc := Z.rem c e) in *.
  destruct (Z.le_gt_cases 0 a) as [Ha0|Ha0], (Z.le_gt_cases 0 c) as [Hc0|Hc0].
  - pose proof (Z.rem_bound_pos a b Ha0 Hb) as Hra.
    pose proof (Z.rem_bound_pos c e Hc0 He) as Hrc.
    fold ra in Hra. fold rc in Hrc.
    apply Z.lt_succ_r. apply (Z.mul_lt_mono_pos_l (b * e)); [nia|].
    assert (b * qa * e <= a * e)%Z by nia.
    assert (c * b < e * (qc + 1) * b)%Z by nia. nia.
  - exfalso. nia.
  - pose proof (Z.rem_bound_pos_neg a b ltac:(lia) ltac:(lia)) as Hra.
    pose proof (Z.rem_bound_pos c e Hc0 He) as Hrc.
    fold ra in Hra. fold rc in Hrc.
    assert (qa <= 0)%Z by nia. assert (0 <= qc)%Z by nia. lia.
  - pose proof (Z.rem_bound_pos_neg a b ltac:(lia) ltac:(lia)) as Hra.
    pose proof (Z.rem_bound_pos_neg c e ltac:(lia) ltac:(lia)) as Hrc.
    fold ra in Hra. fold rc in Hrc.
    apply Z.lt_succ_r. apply (Z.mul_lt_mono_pos_l (b * e)); [nia|].
    assert (b * (qa - 1) * e < a * e)%Z by nia.
    assert (c * b <= e * qc * b)%Z by nia. nia.
Qed.

Lemma quot_lt_int (a b k : Z) : (0 < b -> a ÷ b < k -> a < k * b)%Z.
Proof.
  intros Hb H. pose proof (Z.quot_rem' a b) as Ha.
  destruct (Z.le_gt_cases 0 a) as [Ha0|Ha0].
  - pose proof (Z.rem_bound_pos a b Ha0 Hb). nia.
  - pose proof (Z.rem_bound_pos_neg a b ltac:(lia) ltac:(lia)). nia.
Qed.

(** Truncation is monotone. *)
Lemma trunc_le x y : x <= y -> (trunc x <= trunc y)%Z.
Proof.
  destruct x as [a b], y as [c e]. unfold Qle, trunc. simpl.
  apply quot_le_cross; lia.
Qed.

(** A value whose truncation is below an integer is below that integer. *)
Lemma trunc_lt_int x k : inject_Z (trunc x) < inject_Z k -> x < inject_Z k.
Proof.
  rewrite <- Zlt_Qlt. destruct x as [a b]. unfold Qlt, trunc. simpl.
  rewrite Z.mul_1_r. apply quot_lt_int. lia.
Qed.

(** ** The monad *)

Lemma bind_run {A B} (m : M A) (k : A -> M B) w a w' :
  m w = (Ok a, w') -> (x <- m ;; k x) w = k a w'.
Proof. intros H. unfold bind. by rewrite H. Qed.

Lemma bind_raise {A B} (m : M A) (k : A -> M B) w e w' :
  m w = (Raised e, w') -> (x <- m ;; k x) w = (Raised e, w').
Proof. intros H. unfold bind. by rewrite H. Qed.

(** Run the first action of a sequence, its outcome being given by [tac]. *)
Ltac step tac := erewrite bind_run by tac.

Lemma read_array_run l w a :
  heap w !! l = Some a -> read_array l w = (Ok a, w).
Proof. intros H. unfold read_array. by rewrite H. Qed.

Lemma write_array_run l w a0 a :
  heap w !! l = Some a0 ->
  write_array l a w = (Ok tt, with_heap (<[l := a]> (heap w)) w).
Proof. intros H. unfold write_array. by rewrite H. Qed.

Lemma index_run {A} (xs : list A) i x w :
  xs !! i = Some x -> index xs i w = (Ok x, w).
Proof. intros H. unfold index. by rewrite H. Qed.

(** ** Broadcasting *)

Lemma broadcast_to_one x n w :
  broadcast_to [x] n w = (Ok (replicate n x), w).
Proof.
  unfold broadcast_to. case_decide as Hn; [|done].
  simpl in Hn. by subst n.
Qed.

Lemma broadcast_to_same src n w :
  length src = n -> broadcast_to src n w = (Ok src, w).
Proof. intros H. unfold broadcast_to. by rewrite decide_True. Qed.

Lemma broadcast_to_raises src n w :
  length src <> n -> length src <> 1%nat -> broadcast_to src n w = (Raised ValueError, w).
Proof.
  intros Hn H1. unfold broadcast_to. rewrite decide_False by done.
  by destruct src as [|x [|y src]].
Qed.

Lemma zip_with_replicate (add : Q -> Q -> Q) (r : list Q) (off : Q) :
  zip_with add r (replicate (length r) off) = (fun x => add x off) <$> r.
Proof. induction r as [|x r IH]; [done|]. simpl. by rewrite IH. Qed.

Lemma setitem_bool_run r b x w :
  setitem_bool r b [x] w = (Ok (if b then replicate (length r) x else r), w).
Proof.
  unfold setitem_bool.
  by rewrite (bind_run _ _ _ _ _ (broadcast_to_one x (length r) w)).
Qed.

Lemma iadd_bool_run r b x w :
  iadd_bool r b [x] w =
    (Ok (if b then (fun y => float_add (env w) y x) <$> r else r), w).
Proof.
  unfold iadd_bool.
  rewrite (bind_run _ _ _ _ _ (broadcast_to_one x (length r) w)).
  by rewrite zip_with_replicate.
Qed.

(** ** [apply_along_axis] stores the cast results, in order *)

Lemma results_cons func r0 a :
  results func (r0 :: a) =
    (fun r => cast_to (outcome func r0) (outcome func r)) <$> (r0 :: a).
Proof. done. Qed.

Lemma length_results func a : length (results func a) = length a.
Proof. destruct a; [done|]. by rewrite results_cons, length_fmap. Qed.

Lemma fill_slot_run func arr first buff i r v w :
  arr !! i = Some r -> func r = Ok v ->
  fill_slot func arr first buff i w =
    (Ok (<[i := cast_to first v]> buff), with_calls (calls w ++ [r]) w).
Proof.
  intros Hi Hv. unfold fill_slot.
  step ltac:(by apply index_run).
  unfold bind, call. by rewrite Hv.
Qed.

Lemma fill_slots_run func arr first post : forall pre w,
  arr = pre ++ post -> returns_on func post ->
  fold_each (seq (length pre) (length post)) (fill_slot func arr first)
      (((fun r => cast_to first (outcome func r)) <$> pre)
         ++ replicate (length post) 0) w =
    (Ok ((fun r => cast_to first (outcome func r)) <$> arr),
     with_calls (calls w ++ post) w).
Proof.
  induction post as [|r post IH]; intros pre w Harr Hret.
  - rewrite app_nil_r in Harr. subst arr. simpl. unfold ret.
    destruct w. unfold with_calls. simpl. by rewrite !app_nil_r.
  - destruct (Hret r) as [v Hv]; [by left|].
    simpl.
    step ltac:(eapply fill_slot_run; [subst arr; by apply list_lookup_middle | exact Hv]).
    replace (length pre) with
      (length ((fun r1 => cast_to first (outcome func r1)) <$> pre) + 0)%nat at 2
      by (rewrite length_fmap; lia).
    rewrite insert_app_r. simpl.
    replace (S (length pre)) with (length (pre ++ [r]))
      by (rewrite length_app; simpl; lia).
    replace (((fun r1 => cast_to first (outcome func r1)) <$> pre)
               ++ cast_to first v :: replicate (length post) 0)
      with (((fun r1 => cast_to first (outcome func r1)) <$> (pre ++ [r]))
               ++ replicate (length post) 0).
    2:{ rewrite fmap_app, <- app_assoc. simpl. unfold outcome at 2. by rewrite Hv. }
    rewrite IH.
    + destruct w. unfold with_calls. simpl. by rewrite <- app_assoc.
    + subst arr. by rewrite <- app_assoc.
    + intros r1 Hr1. apply Hret. by right.
Qed.

Lemma apply_along_axis_1_run func arr w :
  arr <> [] -> returns_on func arr ->
  apply_along_axis_1 func arr w =
    (Ok (results func arr), with_calls (calls w ++ arr) w).
Proof.
  intros Hne Hret. destruct arr as [|r0 arr]; [done|].
  destruct (Hret r0) as [v0 Hv0]; [by left|].
  unfold apply_along_axis_1.
  unfold bind, call at 1. rewrite Hv0.
  cbn [length]. rewrite Nat.sub_succ, Nat.sub_0_r.
  pose proof (fill_slots_run func (r0 :: arr) v0 arr [r0]
                (with_calls (calls w ++ [r0]) w) eq_refl) as Hfill.
  cbn [length fmap list_fmap app] in Hfill.
  assert (Hc : cast_to v0 (outcome func r0) = cast_to v0 v0)
    by (unfold outcome; by rewrite Hv0).
  rewrite Hc in Hfill.
  change (<[0%nat := cast_to v0 v0]> (replicate (S (length arr)) 0))
    with (cast_to v0 v0 :: replicate (length arr) 0).
  rewrite Hfill by (intros r Hr; apply Hret; by right).
  assert (Ho : outcome func r0 = v0) by (unfold outcome; by rewrite Hv0).
  rewrite results_cons, Ho.
  destruct w. unfold with_calls. simpl. by rewrite Ho, <- app_assoc.
Qed.

Lemma apply_along_axis_1_empty func w :
  apply_along_axis_1 func [] w = (Raised ValueError, w).
Proof. done. Qed.

(** Where every result is a float nothing is cast. *)

(** Where the first result is a float nothing is cast. *)
Lemma results_first_float func r0 a q :
  func r0 = Ok (PyFloat q) -> results func (r0 :: a) = fitness func <$> (r0 :: a).
Proof.
  intros H0. rewrite results_cons. unfold outcome at 1. by rewrite H0.
Qed.

Lemma results_float func cols a :
  float_valued func cols -> Forall (fun r => length r = cols) a ->
  results func a = fitness func <$> a.
Proof.
  intros Hf Ha. destruct a as [|r0 a]; [done|].
  apply Forall_cons in Ha as [Hr0 _].
  destruct (Hf r0 Hr0) as [q Hq].
  by eapply results_first_float.
Qed.

Lemma float_valued_returns_on func cols a :
  float_valued func cols -> Forall (fun r => length r = cols) a ->
  returns_on func a.
Proof.
  intros Hf Ha r Hr. rewrite Forall_forall in Ha.
  destruct (Hf r (Ha r Hr)) as [q Hq]. by exists (PyFloat q).
Qed.

(** ** [argmax] and [argmin] *)

Lemma argmax_from_spec xs : forall pre best_i best,
  pre !! best_i = Some best ->
  (forall y, y ∈ pre -> y <= best) ->
  (forall j y, (j < best_i)%nat -> pre !! j = Some y -> y < best) ->
  first_max_index (pre ++ xs) (argmax_from xs (length pre) best_i best).
Proof.
  induction xs as [|x xs IH]; intros pre best_i best Hb Hmax Hfirst.
  - simpl. rewrite app_nil_r. by exists best.
  - simpl. rewrite cons_middle, app_assoc.
    replace (S (length pre)) with (length (pre ++ [x]))
      by (rewrite length_app; simpl; lia).
    destruct (Qltb best x) eqn:E.
    + apply Qltb_lt in E. apply IH.
      * by rewrite list_lookup_middle.
      * intros y [Hy|Hy]%elem_of_app.
        -- apply Hmax in Hy. lra.
        -- apply list_elem_of_singleton in Hy. subst y. lra.
      * intros j y Hj Hy. rewrite lookup_app_l in Hy by done.
        apply list_elem_of_lookup_2, Hmax in Hy. lra.
    + apply Qltb_ge in E. apply IH.
      * by apply lookup_app_l_Some.
      * intros y [Hy|Hy]%elem_of_app.
        -- by apply Hmax.
        -- apply list_elem_of_singleton in Hy. by subst y.
      * intros j y Hj Hy. apply lookup_lt_Some in Hb.
        rewrite lookup_app_l in Hy by lia. by eapply Hfirst.
Qed.

Lemma argmin_from_spec xs : forall pre best_i best,
  pre !! best_i = Some best ->
  (forall y, y ∈ pre -> best <= y) ->
  (forall j y, (j < best_i)%nat -> pre !! j = Some y -> best < y) ->
  first_min_index (pre ++ xs) (argmin_from xs (length pre) best_i best).
Proof.
  induction xs as [|x xs IH]; intros pre best_i best Hb Hmin Hfirst.
  - simpl. rewrite app_nil_r. by exists best.
  - simpl. rewrite cons_middle, app_assoc.
    replace (S (length pre)) with (length (pre ++ [x]))
      by (rewrite length_app; simpl; lia).
    destruct (Qltb x best) eqn:E.
    + apply Qltb_lt in E. apply IH.
      * by rewrite list_lookup_middle.
      * intros y [Hy|Hy]%elem_of_app.
        -- apply Hmin in Hy. lra.
        -- apply list_elem_of_singleton in Hy. subst y. lra.
      * intros j y Hj Hy. rewrite lookup_app_l in Hy by done.
        apply list_elem_of_lookup_2, Hmin in Hy. lra.
    + apply Qltb_ge in E. apply IH.
      * by apply lookup_app_l_Some.
      * intros y [Hy|Hy]%elem_of_app.
        -- by apply Hmin.
        -- apply list_elem_of_singleton in Hy. by subst y.
      * intros j y Hj Hy. apply lookup_lt_Some in Hb.
        rewrite lookup_app_l in Hy by lia. by eapply Hfirst.
Qed.

Lemma worst_index_spec xs : xs <> [] -> first_max_index xs (worst_index xs).
Proof.
  destruct xs as [|x xs]; [done|]. intros _.
  apply (argmax_from_spec xs [x] 0%nat x); [done | |].
  - intros y Hy%list_elem_of_singleton. subst y. lra.
  - intros j y Hj. lia.
Qed.

Lemma best_index_spec xs : xs <> [] -> first_min_index xs (best_index xs).
Proof.
  destruct xs as [|x xs]; [done|]. intros _.
  apply (argmin_from_spec xs [x] 0%nat x); [done | |].
  - intros y Hy%list_elem_of_singleton. subst y. lra.
  - intros j y Hj. lia.
Qed.

Lemma np_argmax_worst xs w : xs <> [] -> np_argmax xs w = (Ok (worst_index xs), w).
Proof. by destruct xs. Qed.

Lemma np_argmin_best xs w : xs <> [] -> np_argmin xs w = (Ok (best_index xs), w).
Proof. by destruct xs. Qed.

Lemma first_max_index_max xs i :
  first_max_index xs i -> exists m, xs !! i = Some m /\ max_of xs m.
Proof.
  intros (m & Hi & Hmax & _). exists m. split; [done|].
  split; [by eapply list_elem_of_lookup_2 | done].
Qed.

Lemma first_min_index_min xs i :
  first_min_index xs i -> exists m, xs !! i = Some m /\ min_of xs m.
Proof.
  intros (m & Hi & Hmin & _). exists m. split; [done|].
  split; [by eapply list_elem_of_lookup_2 | done].
Qed.

Lemma max_of_unique xs m m' : max_of xs m -> max_of xs m' -> m == m'.
Proof. intros [H1 H2] [H3 H4]. apply H4 in H1. apply H2 in H3. lra. Qed.

Lemma min_of_unique xs m m' : min_of xs m -> min_of xs m' -> m == m'.
Proof. intros [H1 H2] [H3 H4]. apply H4 in H1. apply H2 in H3. lra. Qed.


(** ** Shapes *)

Lemma shape_lookup rows cols a i r :
  shape rows cols a -> a !! i = Some r -> length r = cols.
Proof. intros [_ H] Hi. by eapply (Forall_lookup_1 _ _ _ _ H). Qed.

Lemma shape_insert rows cols a i r :
  shape rows cols a -> length r = cols -> shape rows cols (<[i := r]> a).
Proof.
  intros [Hl H] Hr. split; [by rewrite length_insert|].
  by apply Forall_insert.
Qed.

Lemma shape_nonempty rows cols a :
  shape rows cols a -> (0 < rows)%nat -> a <> [].
Proof. intros [Hl _] Hr ->. simpl in Hl. lia. Qed.

Lemma length_draws e low high p n : length (draws e low high p n) = n.
Proof. unfold draws. by rewrite length_fmap, length_seq. Qed.

Lemma draws_in_range e low high p n x :
  uniform_in_range e -> low <= high -> x ∈ draws e low high p n ->
  low <= x /\ x <= high.
Proof. intros He Hlh (k & -> & _)%list_elem_of_fmap. by apply He. Qed.

Lemma length_drawn_rows e low high cols rows : forall p,
  length (drawn_rows e low high p rows cols) = rows.
Proof. induction rows as [|rows IH]; intros p; simpl; [done|]. by rewrite IH. Qed.

Lemma drawn_rows_elem e low high cols rows : forall p r,
  r ∈ drawn_rows e low high p rows cols ->
  exists q, r = draws e low high q cols.
Proof.
  induction rows as [|rows IH]; intros p r Hr; simpl in Hr.
  - by apply elem_of_nil in Hr.
  - apply elem_of_cons in Hr as [->|Hr]; [by exists p | by eapply IH].
Qed.

Lemma shape_drawn_rows e low high p rows cols :
  shape rows cols (drawn_rows e low high p rows cols).
Proof.
  split; [apply length_drawn_rows|].
  apply Forall_forall. intros r (q & ->)%drawn_rows_elem. apply length_draws.
Qed.

(** ** The random draws *)

Lemma uniform_draws_run low high n : forall w,
  uniform_draws low high n w =
    (Ok (draws (env w) low high (rng_pos w) n), with_pos (rng_pos w + n) w).
Proof.
  induction n as [|n IH]; intros [h e p c].
  - unfold with_pos. simpl. unfold ret, draws. simpl. do 2 f_equal. lia.
  - simpl. unfold bind at 1. unfold uniform_draw at 1. unfold bind at 1.
    rewrite IH. unfold ret, with_pos, draws. simpl. do 2 f_equal. lia.
Qed.

Lemma uniform_rows_run low high cols rows : forall w,
  uniform_rows low high rows cols w =
    (Ok (drawn_rows (env w) low high (rng_pos w) rows cols),
     with_pos (rng_pos w + rows * cols) w).
Proof.
  induction rows as [|rows IH]; intros [h e p c].
  - unfold with_pos. simpl. unfold ret. do 2 f_equal. lia.
  - simpl. unfold bind at 1. rewrite uniform_draws_run.
    unfold bind at 1. rewrite IH. unfold ret, with_pos. simpl. do 2 f_equal. lia.
Qed.

Lemma np_random_uniform_run low high n w :
  finite_range low high = true ->
  np_random_uniform low high n w =
    (Ok (draws (env w) low high (rng_pos w) n), with_pos (rng_pos w + n) w).
Proof. intros H. unfold np_random_uniform. rewrite H. apply uniform_draws_run. Qed.

Lemma np_random_uniform_overflow low high n w :
  finite_range low high = false ->
  np_random_uniform low high n w = (Raised OverflowError, w).
Proof. intros H. unfold np_random_uniform. by rewrite H. Qed.

Lemma np_random_rand_run w :
  np_random_rand w = (Ok (rng_samples (env w) (rng_pos w)), with_pos (S (rng_pos w)) w).
Proof. done. Qed.

Lemma defined_on_returns_on func cols a :
  defined_on func cols -> Forall (fun r => length r = cols) a -> returns_on func a.
Proof. intros Hf Ha r Hr. rewrite Forall_forall in Ha. by apply Hf, Ha. Qed.

Lemma float_valued_defined_on func cols :
  float_valued func cols -> defined_on func cols.
Proof. intros Hf r Hr. destruct (Hf r Hr) as [q Hq]. by exists (PyFloat q). Qed.

(** ** The methods, run *)

Section MethodRuns.

Variable self : HarmonySearch.

(** *** [generate_hm] *)

Lemma generate_hm_run h e p c :
  finite_range (rand_min self) (rand_max self) = true ->
  valid_shape (hms self) (d self) = true ->
  generate_hm self (World h e p c) =
    (Ok (length h),
     World (h ++ [drawn_rows e (rand_min self) (rand_max self) p
                    (Z.to_nat (hms self)) (Z.to_nat (d self))])
           e (p + Z.to_nat (hms self) * Z.to_nat (d self)) c).
Proof.
  intros Hfin Hshape. unfold generate_hm, np_random_uniform_2d.
  rewrite Hfin, Hshape. unfold bind. by rewrite uniform_rows_run.
Qed.

Lemma generate_hm_overflow w :
  finite_range (rand_min self) (rand_max self) = false ->
  generate_hm self w = (Raised OverflowError, w).
Proof. intros H. unfold generate_hm, np_random_uniform_2d. by rewrite H. Qed.

Lemma generate_hm_invalid_shape w :
  finite_range (rand_min self) (rand_max self) = true ->
  valid_shape (hms self) (d self) = false ->
  generate_hm self w = (Raised ValueError, w).
Proof. intros H1 H2. unfold generate_hm, np_random_uniform_2d. by rewrite H1, H2. Qed.

(** *** [eval] *)

Lemma eval_run hm w a :
  heap w !! hm = Some a -> a <> [] -> returns_on (f self) a ->
  eval self hm w = (Ok (results (f self) a), with_calls (calls w ++ a) w).
Proof.
  intros Ha Hne Hret. unfold eval.
  rewrite (bind_run _ _ _ _ _ (read_array_run _ _ _ Ha)).
  by apply apply_along_axis_1_run.
Qed.

Lemma eval_empty hm w :
  heap w !! hm = Some [] -> eval self hm w = (Raised ValueError, w).
Proof.
  intros Ha. unfold eval.
  by rewrite (bind_run _ _ _ _ _ (read_array_run _ _ _ Ha)).
Qed.

(** *** [improvise] *)

Lemma improvise_row_run new_hm row h e p c a r :
  finite_range (rand_min self) (rand_max self) = true ->
  finite_range (- bw self) (bw self) = true ->
  h !! new_hm = Some a -> a !! row = Some r ->
  improvise_row self new_hm row (World h e p c) =
    (Ok tt, World (<[new_hm := <[row := improvised_row self e p r]> a]> h) e (p + 4) c).
Proof.
  intros Hfin Hfinbw Hh Ha.
  assert (Hlt : (new_hm < length h)%nat) by by eapply lookup_lt_Some.
  assert (Hrow : (row < length a)%nat) by by eapply lookup_lt_Some.
  unfold improvise_row.
  (* new_hm[row][rand() > hmcr] = uniform(rand_min, rand_max, 1) *)
  step ltac:(by apply np_random_uniform_run).
  step ltac:(apply np_random_rand_run).
  step ltac:(apply read_array_run; exact Hh).
  step ltac:(apply index_run; exact Ha).
  step ltac:(apply setitem_bool_run).
  step ltac:(eapply write_array_run; exact Hh).
  (* new_hm[row][rand() > par] += uniform(-bw, bw, 1) *)
  step ltac:(apply np_random_rand_run).
  step ltac:(apply read_array_run; simpl; by apply list_lookup_insert_eq).
  step ltac:(apply index_run; by apply list_lookup_insert_eq).
  step ltac:(by apply np_random_uniform_run).
  step ltac:(apply iadd_bool_run).
  erewrite write_array_run by (simpl; by apply list_lookup_insert_eq).
  unfold with_heap, with_pos. simpl.
  rewrite !list_insert_insert_eq, !Nat.add_1_r.
  replace (p + 4)%nat with (S (S (S (S p)))) by lia.
  done.
Qed.

Lemma improvise_loop_run new_hm e rest : forall pre h p c,
  finite_range (rand_min self) (rand_max self) = true ->
  finite_range (- bw self) (bw self) = true ->
  h !! new_hm = Some (pre ++ rest) ->
  for_each (seq (length pre) (length rest)) (improvise_row self new_hm) (World h e p c) =
    (Ok tt, World (<[new_hm := pre ++ improvised_rows self e p rest]> h) e
                  (p + 4 * length rest) c).
Proof.
  induction rest as [|r rest IH]; intros pre h p c Hfin Hfinbw Hh.
  - simpl. unfold ret. rewrite list_insert_id by done.
    do 2 f_equal. lia.
  - assert (Hlt : (new_hm < length h)%nat) by by eapply lookup_lt_Some.
    simpl. unfold bind.
    erewrite improvise_row_run; [|done|done|done|by apply list_lookup_middle].
    replace (<[length pre := improvised_row self e p r]> (pre ++ r :: rest))
      with ((pre ++ [improvised_row self e p r]) ++ rest).
    2:{ rewrite <- (Nat.add_0_r (length pre)), insert_app_r. simpl.
        by rewrite <- app_assoc. }
    replace (S (length pre)) with (length (pre ++ [improvised_row self e p r]))
      by (rewrite length_app; simpl; lia).
    rewrite IH by (done || by rewrite list_lookup_insert_eq).
    rewrite list_insert_insert_eq, <- app_assoc. simpl.
    do 2 f_equal. lia.
Qed.

Lemma improvise_run hm h e p c a :
  finite_range (rand_min self) (rand_max self) = true ->
  finite_range (- bw self) (bw self) = true ->
  h !! hm = Some a ->
  improvise self hm (World h e p c) =
    (Ok (length h), World (h ++ [improvised_rows self e p a]) e (p + 4 * length a) c).
Proof.
  intros Hfin Hfinbw Hh.
  assert (Hlt : (hm < length h)%nat) by by eapply lookup_lt_Some.
  unfold improvise, deepcopy.
  unfold bind at 1. unfold bind at 1. unfold read_array at 1. simpl heap. rewrite Hh.
  unfold alloc_array, with_heap. simpl.
  unfold bind at 1. unfold len, bind at 1. unfold read_array. simpl heap.
  rewrite lookup_app_l by done. rewrite Hh. unfold ret at 1.
  unfold bind at 1.
  pose proof (improvise_loop_run (length h) e a [] (h ++ [a]) p c Hfin Hfinbw) as Hloop.
  cbn [length app] in Hloop. rewrite Hloop by (by rewrite list_lookup_middle).
  unfold ret.
  rewrite <- (Nat.add_0_r (length h)) at 2. rewrite insert_app_r. done.
Qed.

(** An empty memory is copied without a draw, whatever the ranges are. *)
Lemma improvise_empty hm h e p c :
  h !! hm = Some [] ->
  improvise self hm (World h e p c) = (Ok (length h), World (h ++ [[]]) e p c).
Proof.
  intros Hh.
  assert (Hlt : (hm < length h)%nat) by by eapply lookup_lt_Some.
  unfold improvise, deepcopy, len, bind, read_array, alloc_array, with_heap. simpl.
  rewrite Hh. simpl. rewrite lookup_app_l by done. by rewrite Hh.
Qed.

End MethodRuns.

(** ** [change_hm] *)

Section Selection.

Variable self : HarmonySearch.

Lemma results_nonempty a : a <> [] -> results (f self) a <> [].
Proof.
  intros Hne Hnil. apply Hne, nil_length_inv.
  by rewrite <- (length_results (f self)), Hnil.
Qed.

Lemma worst_row a :
  a <> [] ->
  exists ow ra,
    results (f self) a !! worst_index (results (f self) a) = Some ow /\
    a !! worst_index (results (f self) a) = Some ra /\
    first_max_index (results (f self) a) (worst_index (results (f self) a)).
Proof.
  intros Hne.
  pose proof (worst_index_spec _ (results_nonempty a Hne)) as Hspec.
  destruct Hspec as (ow & Hi & Hmax). exists ow.
  destruct (lookup_lt_is_Some_2 a (worst_index (results (f self) a))) as [ra Hra].
  { rewrite <- (length_results (f self)). by eapply lookup_lt_Some. }
  exists ra. split; [done|]. split; [done|]. by exists ow.
Qed.

Lemma best_row b :
  b <> [] ->
  exists nb rb,
    results (f self) b !! best_index (results (f self) b) = Some nb /\
    b !! best_index (results (f self) b) = Some rb /\
    first_min_index (results (f self) b) (best_index (results (f self) b)).
Proof.
  intros Hne.
  pose proof (best_index_spec _ (results_nonempty b Hne)) as Hspec.
  destruct Hspec as (nb & Hi & Hmin). exists nb.
  destruct (lookup_lt_is_Some_2 b (best_index (results (f self) b))) as [rb Hrb].
  { rewrite <- (length_results (f self)). by eapply lookup_lt_Some. }
  exists rb. split; [done|]. split; [done|]. by exists nb.
Qed.

Lemma change_hm_run old_hm new_hm h e p c a b cols :
  h !! old_hm = Some a -> h !! new_hm = Some b ->
  a <> [] -> b <> [] ->
  returns_on (f self) a -> returns_on (f self) b ->
  Forall (fun r => length r = cols) a -> Forall (fun r => length r = cols) b ->
  change_hm self old_hm new_hm (World h e p c) =
    (Ok old_hm, World (<[old_hm := replaced self a b]> h) e p (c ++ a ++ b)).
Proof.
  intros Ha Hb Hnea Hneb Hreta Hretb Hca Hcb.
  destruct (worst_row a Hnea) as (ow & ra & How & Hra & _).
  destruct (best_row b Hneb) as (nb & rb & Hnb & Hrb & _).
  unfold change_hm.
  step ltac:(by apply (eval_run self old_hm (World h e p c) a)).
  step ltac:(by apply (eval_run self new_hm _ b)).
  step ltac:(apply np_argmax_worst; by apply results_nonempty).
  step ltac:(apply np_argmin_best; by apply results_nonempty).
  step ltac:(apply index_run; exact Hnb).
  step ltac:(apply index_run; exact How).
  unfold replaced. rewrite How, Hnb, Hrb.
  unfold with_calls. simpl. rewrite <- app_assoc.
  destruct (Qltb nb ow).
  - unfold bind at 1.
    step ltac:(by apply read_array_run).
    step ltac:(by apply index_run).
    step ltac:(by apply read_array_run).
    step ltac:(by apply index_run).
    erewrite bind_run; [| apply broadcast_to_same].
    2:{ rewrite (Forall_lookup_1 _ _ _ _ Hca Hra).
        by rewrite (Forall_lookup_1 _ _ _ _ Hcb Hrb). }
    erewrite write_array_run by done. done.
  - unfold bind, ret. by rewrite list_insert_id.
Qed.

(** The rows [change_hm] leaves are rows of one of its two arguments. *)
Lemma replaced_rows a b r : r ∈ replaced self a b -> r ∈ a \/ r ∈ b.
Proof.
  unfold replaced.
  destruct (results _ a !! _) as [ow|]; [|by left].
  destruct (results _ b !! _) as [nb|]; [|by left].
  destruct (b !! _) as [rb|] eqn:Eb; [|by left].
  destruct (Qltb _ _); [|by left].
  intros [j Hj]%list_elem_of_lookup.
  destruct (decide (j = worst_index (results (f self) a))) as [->|Hne].
  - destruct (decide (worst_index (results (f self) a) < length a)%nat) as [Hlt|Hge].
    + rewrite list_lookup_insert_eq in Hj by done. simplify_eq.
      right. by eapply list_elem_of_lookup_2.
    + rewrite list_insert_ge in Hj by lia. left. by eapply list_elem_of_lookup_2.
  - rewrite list_lookup_insert_ne in Hj by done.
    left. by eapply list_elem_of_lookup_2.
Qed.

(** At most one index changes. *)
Lemma replaced_one_index a b :
  exists i, forall j, j <> i -> replaced self a b !! j = a !! j.
Proof.
  exists (worst_index (results (f self) a)). intros j Hj. unfold replaced.
  destruct (results _ a !! _) as [ow|]; [|done].
  destruct (results _ b !! _) as [nb|]; [|done].
  destruct (b !! _) as [rb|]; [|done].
  destruct (Qltb _ _); [|done].
  by apply list_lookup_insert_ne.
Qed.

Lemma shape_replaced_rows n cols a b :
  shape n cols a -> Forall (fun r => length r = cols) b ->
  shape n cols (replaced self a b).
Proof.
  intros Ha Hb. unfold replaced.
  destruct (results _ a !! _) as [ow|]; [|done].
  destruct (results _ b !! _) as [nb|]; [|done].
  destruct (b !! _) as [rb|] eqn:Eb; [|done].
  destruct (Qltb _ _); [|done].
  apply shape_insert; [done|]. by eapply (Forall_lookup_1 _ _ _ _ Hb).
Qed.

Lemma shape_replaced rows cols a b :
  shape rows cols a -> shape rows cols b -> shape rows cols (replaced self a b).
Proof. intros Ha [_ Hb]. by apply shape_replaced_rows. Qed.

(** What decides the replacement, spelled out. *)
Lemma replaced_cases a b :
  a <> [] -> b <> [] ->
  exists wi bi ow nb ra rb,
    wi = worst_index (results (f self) a) /\ bi = best_index (results (f self) b) /\
    first_max_index (results (f self) a) wi /\
    first_min_index (results (f self) b) bi /\
    results (f self) a !! wi = Some ow /\ results (f self) b !! bi = Some nb /\
    a !! wi = Some ra /\ b !! bi = Some rb /\
    ((nb < ow /\ replaced self a b = <[wi := rb]> a) \/
     (ow <= nb /\ replaced self a b = a)).
Proof.
  intros Hnea Hneb.
  destruct (worst_row a Hnea) as (ow & ra & How & Hra & Hmax).
  destruct (best_row b Hneb) as (nb & rb & Hnb & Hrb & Hmin).
  eexists _, _, ow, nb, ra, rb. do 8 (split; [done|]).
  unfold replaced. rewrite How, Hnb, Hrb.
  destruct (Qltb nb ow) eqn:E.
  - left. by apply Qltb_lt in E.
  - right. by apply Qltb_ge in E.
Qed.

End Selection.

(** ** The search loop *)

Section SearchLoop.

Variable self : HarmonySearch.

Lemma length_row_update e v u u2 off r :
  length (row_update self e v u u2 off r) = length r.
Proof.
  unfold row_update.
  destruct (Qltb (hmcr self) u), (Qltb (par self) u2);
    rewrite ?length_fmap, ?length_replicate; done.
Qed.

Lemma length_improvised_rows e a : forall p,
  length (improvised_rows self e p a) = length a.
Proof. induction a as [|r a IH]; intros p; simpl; [done|]. by rewrite IH. Qed.

Lemma improvised_rows_lookup e a : forall p i,
  improvised_rows self e p a !! i = improvised_row self e (p + 4 * i) <$> a !! i.
Proof.
  induction a as [|r a IH]; intros p i; [done|].
  destruct i as [|i]; simpl.
  - by rewrite Nat.add_0_r.
  - rewrite IH. do 2 f_equal. lia.
Qed.

Lemma shape_improvised_rows e p rows cols a :
  shape rows cols a -> shape rows cols (improvised_rows self e p a).
Proof.
  intros [Hl Hc]. split; [by rewrite length_improvised_rows|].
  apply Forall_lookup_2. intros i r Hi.
  rewrite improvised_rows_lookup in Hi.
  destruct (a !! i) as [r0|] eqn:E; [|done]. simpl in Hi. simplify_eq.
  unfold improvised_row. rewrite length_row_update.
  by eapply (Forall_lookup_1 _ _ _ _ Hc).
Qed.

Lemma shape_next_memory e p rows cols a :
  shape rows cols a -> shape rows cols (next_memory self e p a).
Proof. intros Ha. apply shape_replaced; [done|]. by apply shape_improvised_rows. Qed.

Lemma shape_memory_after e rows cols n : forall p a,
  shape rows cols a -> shape rows cols (memory_after self e n p a).
Proof.
  induction n as [|n IH]; intros p a Ha; simpl; [done|].
  by apply IH, shape_next_memory.
Qed.

Lemma iteration_run hm res h e p c rows cols a :
  finite_range (rand_min self) (rand_max self) = true ->
  finite_range (- bw self) (bw self) = true ->
  defined_on (f self) cols ->
  h !! hm = Some a -> shape rows cols a -> (0 < rows)%nat ->
  iteration self (hm, res) (World h e p c) =
    (Ok (hm, results (f self) (next_memory self e p a)),
     World (<[hm := next_memory self e p a]> (h ++ [improvised_rows self e p a]))
           e (p + 4 * rows)
           (c ++ a ++ improvised_rows self e p a ++ next_memory self e p a)).
Proof.
  intros Hfin Hfinbw Hf Hh Ha Hrows.
  assert (Hlt : (hm < length h)%nat) by by eapply lookup_lt_Some.
  pose proof (shape_improvised_rows e p _ _ _ Ha) as Ha1.
  pose proof (shape_next_memory e p _ _ _ Ha) as Ha2.
  unfold iteration.
  step ltac:(by apply improvise_run).
  step ltac:(eapply (change_hm_run self hm (length h) _ e _ _ a _ cols);
             [ by rewrite lookup_app_l | by rewrite list_lookup_middle
             | by eapply shape_nonempty | by eapply shape_nonempty
             | eapply defined_on_returns_on; [done | apply Ha]
             | eapply defined_on_returns_on; [done | apply Ha1]
             | apply Ha | apply Ha1 ]).
  step ltac:(eapply eval_run;
             [ simpl; apply list_lookup_insert_eq; rewrite length_app; lia
             | eapply shape_nonempty; [exact Ha2 | done]
             | eapply defined_on_returns_on; [done | apply Ha2] ]).
  unfold ret, with_calls. simpl. destruct Ha as [-> _].
  by rewrite <- !app_assoc.
Qed.

Lemma search_loop_run hm e rows cols n : forall h p c a,
  finite_range (rand_min self) (rand_max self) = true ->
  ((0 < n)%nat -> finite_range (- bw self) (bw self) = true) ->
  defined_on (f self) cols ->
  h !! hm = Some a -> shape rows cols a -> (0 < rows)%nat ->
  exists h',
    repeat_loop n (iteration self) (hm, results (f self) a) (World h e p c) =
      (Ok (hm, results (f self) (memory_after self e n p a)),
       World h' e (p + n * (4 * rows)) (c ++ calls_during self e n p a)) /\
    h' !! hm = Some (memory_after self e n p a) /\
    length h' = (length h + n)%nat /\
    (forall l, l <> hm -> (l < length h)%nat -> h' !! l = h !! l).
Proof.
  induction n as [|n IH]; intros h p c a Hfin Hfinbw Hf Hh Ha Hrows.
  - exists h. simpl. unfold ret. rewrite app_nil_r.
    repeat split; [do 2 f_equal; lia | done | lia].
  - assert (Hla : length a = rows) by apply Ha.
    simpl. rewrite Hla.
    rewrite (bind_run _ _ _ _ _
               (iteration_run hm (results (f self) a) h e p c rows cols a Hfin
                  (Hfinbw ltac:(lia))
                  Hf Hh Ha Hrows)).
    destruct (IH (<[hm := next_memory self e p a]> (h ++ [improvised_rows self e p a]))
                 (p + 4 * rows)%nat
                 (c ++ a ++ improvised_rows self e p a ++ next_memory self e p a)
                 (next_memory self e p a))
      as (h' & Hrun & Hhm & Hlen & Hframe);
      [done | intros _; apply Hfinbw; lia | done | | by apply shape_next_memory | done |].
    { apply list_lookup_insert_eq. rewrite length_app.
      apply lookup_lt_Some in Hh. lia. }
    exists h'. rewrite Hrun. repeat split.
    + do 2 f_equal; [lia|]. by rewrite <- !app_assoc.
    + done.
    + rewrite Hlen, length_insert, length_app. simpl. lia.
    + intros l Hl Hlt. rewrite Hframe; [| done | rewrite length_insert, length_app; lia].
      rewrite list_lookup_insert_ne by done. by rewrite lookup_app_l.
Qed.

End SearchLoop.

(** ** [find_harmony] *)

Lemma find_harmony_run (self : HarmonySearch) h e p c :
  finite_range (rand_min self) (rand_max self) = true ->
  ((0 < max_iter self)%Z -> finite_range (- bw self) (bw self) = true) ->
  valid_shape (hms self) (d self) = true -> (0 < hms self)%Z ->
  defined_on (f self) (Z.to_nat (d self)) ->
  let rows := Z.to_nat (hms self) in
  let cols := Z.to_nat (d self) in
  let n := Z.to_nat (max_iter self) in
  let a0 := drawn_rows e (rand_min self) (rand_max self) p rows cols in
  let final := memory_after self e n (p + rows * cols) a0 in
  exists row h',
    repeat_loop n (iteration self) (length h, results (f self) a0)
        (World (h ++ [a0]) e (p + rows * cols) (c ++ a0)) =
      (Ok (length h, results (f self) final),
       World h' e (p + rows * cols + n * (4 * rows))
             ((c ++ a0) ++ calls_during self e n (p + rows * cols) a0)) /\
    find_harmony self (World h e p c) =
      (Ok row, World h' e (p + rows * cols + n * (4 * rows))
                     ((c ++ a0) ++ calls_during self e n (p + rows * cols) a0)) /\
    h' !! length h = Some final /\
    length h' = (length h + 1 + n)%nat /\
    (forall l, (l < length h)%nat -> h' !! l = h !! l) /\
    final !! best_index (results (f self) final) = Some row.
Proof.
  intros Hfin Hfinbw Hshape Hhms Hf rows cols n a0 final.
  assert (Hrows : (0 < rows)%nat) by (unfold rows; lia).
  assert (Ha0 : shape rows cols a0) by apply shape_drawn_rows.
  assert (Hfinal : shape rows cols final) by by apply shape_memory_after.
  assert (Hne : final <> []) by by eapply shape_nonempty.
  destruct (best_row self final Hne) as (nb & row & _ & Hrow & _).
  destruct (search_loop_run self (length h) e rows cols n
              (h ++ [a0]) (p + rows * cols)%nat (c ++ a0) a0)
    as (h' & Hloop & Hhm & Hlen & Hframe);
    [done | intros Hn; apply Hfinbw; unfold n in Hn; lia | done
    | by rewrite list_lookup_middle | done | done |].
  exists row, h'. split; [done|]. split; [|repeat split].
  - unfold find_harmony.
    step ltac:(by apply generate_hm_run).
    step ltac:(apply eval_run;
               [ by apply list_lookup_middle | by eapply shape_nonempty
               | eapply defined_on_returns_on; [done | apply Ha0] ]).
    unfold range. rewrite length_seq.
    fold rows cols n a0.
    erewrite bind_run by exact Hloop. cbv beta iota. fold final.
    step ltac:(apply np_argmin_best; by apply results_nonempty).
    step ltac:(by apply read_array_run).
    by apply index_run.
  - done.
  - rewrite Hlen, length_app. simpl. lia.
  - intros l Hl. rewrite Hframe; [| lia | rewrite length_app; lia].
    by rewrite lookup_app_l.
  - done.
Qed.

(** ** When the objective raises *)

Lemma fill_slot_raises func arr first buff i r e w :
  arr !! i = Some r -> func r = Raised e ->
  fill_slot func arr first buff i w = (Raised e, with_calls (calls w ++ [r]) w).
Proof.
  intros Hi He. unfold fill_slot.
  step ltac:(by apply index_run).
  unfold bind, call. by rewrite He.
Qed.

Lemma fill_slots_raise func arr first r post e mid : forall pre buff w,
  arr = pre ++ mid ++ r :: post -> returns_on func mid -> func r = Raised e ->
  fold_each (seq (length pre) (length mid + S (length post)))
      (fill_slot func arr first) buff w =
    (Raised e, with_calls (calls w ++ mid ++ [r]) w).
Proof.
  induction mid as [|r1 mid IH]; intros pre buff w Harr Hret He.
  - simpl. erewrite bind_raise; [done|].
    eapply fill_slot_raises; [|done]. subst arr. by apply list_lookup_middle.
  - destruct (Hret r1) as [v Hv]; [by left|].
    simpl.
    step ltac:(eapply fill_slot_run; [subst arr; by apply list_lookup_middle | exact Hv]).
    replace (S (length pre)) with (length (pre ++ [r1]))
      by (rewrite length_app; simpl; lia).
    rewrite IH.
    + destruct w. unfold with_calls. simpl. by rewrite <- app_assoc.
    + subst arr. by rewrite <- app_assoc.
    + intros r2 Hr2. apply Hret. by right.
    + done.
Qed.

(** [apply_along_axis] raises what [func] raises on the first row it does
    not return on; it has then called [func] on the rows up to that one and
    on no later row. *)
Lemma apply_along_axis_1_raises func pre r post e w :
  returns_on func pre -> func r = Raised e ->
  apply_along_axis_1 func (pre ++ r :: post) w =
    (Raised e, with_calls (calls w ++ pre ++ [r]) w).
Proof.
  intros Hret He. destruct pre as [|r0 pre].
  - simpl. unfold bind, call. by rewrite He.
  - destruct (Hret r0) as [v0 Hv0]; [by left|].
    unfold apply_along_axis_1. cbn [app].
    unfold bind at 1, call at 1. rewrite Hv0.
    cbn [length]. rewrite Nat.sub_succ, Nat.sub_0_r, length_app. cbn [length].
    rewrite (fill_slots_raise func (r0 :: pre ++ r :: post) v0 r post e pre [r0]);
      [| done | intros r1 Hr1; apply Hret; by right | done].
    destruct w. unfold with_calls. simpl. by rewrite <- app_assoc.
Qed.

(** Either [func] returns on every row, or there is a first row on which it
    raises. *)
Lemma first_raise func a :
  returns_on func a \/
  exists pre r post e, a = pre ++ r :: post /\ returns_on func pre /\ func r = Raised e.
Proof.
  induction a as [|r a IH].
  - left. intros r Hr. by apply elem_of_nil in Hr.
  - destruct (func r) as [v|e] eqn:Er.
    + destruct IH as [Hret|(pre & r1 & post & e & -> & Hpre & He)].
      * left. intros r1 [->|Hr1]%elem_of_cons; [by exists v | by apply Hret].
      * right. exists (r :: pre), r1, post, e. split; [done|]. split; [|done].
        intros r2 [->|Hr2]%elem_of_cons; [by exists v | by apply Hpre].
    + right. exists [], r, a, e. split; [done|]. split; [|done].
      intros r1 Hr1. by apply elem_of_nil in Hr1.
Qed.

Lemma not_returns_on func pre r post e :
  func r = Raised e -> ~ returns_on func (pre ++ r :: post).
Proof.
  intros He Hret. destruct (Hret r) as [v Hv]; [|congruence].
  apply elem_of_app. right. by left.
Qed.

Section Outcomes.

Variable self : HarmonySearch.

(** The outcomes of [eval] on an allocated memory: its stored results, or
    the exception of the first failing row, or [ValueError] when there is
    no row.  The store and the generator are never touched. *)
Lemma eval_outcome hm w a :
  heap w !! hm = Some a ->
  (a <> [] /\ returns_on (f self) a /\
   eval self hm w = (Ok (results (f self) a), with_calls (calls w ++ a) w)) \/
  (exists e called, (a = [] \/ ~ returns_on (f self) a) /\
   eval self hm w = (Raised e, with_calls (calls w ++ called) w)).
Proof.
  intros Ha. destruct a as [|r0 a].
  - right. exists ValueError, []. split; [by left|].
    rewrite (eval_empty self hm w Ha). destruct w. unfold with_calls. simpl.
    by rewrite app_nil_r.
  - destruct (first_raise (f self) (r0 :: a))
      as [Hret|(pre & r & post & e & Heq & Hpre & He)].
    + left. split; [done|]. split; [done|]. by apply eval_run.
    + right. exists e, (pre ++ [r]). split.
      * right. rewrite Heq. by eapply not_returns_on.
      * unfold eval. rewrite (bind_run _ _ _ _ _ (read_array_run _ _ _ Ha)).
        rewrite Heq. by apply apply_along_axis_1_raises.
Qed.

Lemma eval_ok_inv hm w a rs w' :
  heap w !! hm = Some a -> eval self hm w = (Ok rs, w') ->
  a <> [] /\ returns_on (f self) a /\ rs = results (f self) a /\
  w' = with_calls (calls w ++ a) w.
Proof.
  intros Ha Hrun.
  destruct (eval_outcome hm w a Ha) as [(Hne & Hret & Hok)|(e & called & _ & Hraise)].
  - rewrite Hok in Hrun. by simplify_eq.
  - rewrite Hraise in Hrun. done.
Qed.

End Outcomes.

Lemma insert_appended {A} (h : list A) (x y : A) :
  <[length h := x]> (h ++ [y]) = h ++ [x].
Proof. rewrite <- (Nat.add_0_r (length h)). by rewrite insert_app_r. Qed.

Section MoreOutcomes.

Variable self : HarmonySearch.

Lemma improvise_row_overflow new_hm row w :
  finite_range (rand_min self) (rand_max self) = false ->
  improvise_row self new_hm row w = (Raised OverflowError, w).
Proof.
  intros Hfin. unfold improvise_row.
  by apply bind_raise, np_random_uniform_overflow.
Qed.

Lemma improvise_row_overflow_shift new_hm row h e p c a r :
  finite_range (rand_min self) (rand_max self) = true ->
  finite_range (- bw self) (bw self) = false ->
  h !! new_hm = Some a -> a !! row = Some r ->
  improvise_row self new_hm row (World h e p c) =
    (Raised OverflowError,
     World (<[new_hm := <[row := if Qltb (hmcr self) (rng_samples e (S p))
                                 then replicate (length r)
                                        (rng_uniform e p (rand_min self) (rand_max self))
                                 else r]> a]> h) e (p + 3) c).
Proof.
  intros Hfin Hfinbw Hh Ha.
  assert (Hlt : (new_hm < length h)%nat) by by eapply lookup_lt_Some.
  assert (Hrow : (row < length a)%nat) by by eapply lookup_lt_Some.
  unfold improvise_row.
  step ltac:(by apply np_random_uniform_run).
  step ltac:(apply np_random_rand_run).
  step ltac:(apply read_array_run; exact Hh).
  step ltac:(apply index_run; exact Ha).
  step ltac:(apply setitem_bool_run).
  step ltac:(eapply write_array_run; exact Hh).
  step ltac:(apply np_random_rand_run).
  step ltac:(apply read_array_run; simpl; by apply list_lookup_insert_eq).
  step ltac:(apply index_run; by apply list_lookup_insert_eq).
  erewrite bind_raise by (by apply np_random_uniform_overflow).
  unfold with_heap, with_pos. simpl. rewrite !Nat.add_1_r.
  replace (p + 3)%nat with (S (S (S p))) by lia. done.
Qed.

(** Every outcome of [improvise] on an allocated memory: one array has been
    appended to the store, as long as the input and of its row widths, and
    nothing else has changed but the generator's position.  It returns, with
    the improvised rows in the new array, when the memory has no row or both
    ranges are finite; otherwise it raises [OverflowError] at the first
    row. *)
Lemma improvise_outcome hm h e p c a :
  h !! hm = Some a ->
  exists out a' p',
    improvise self hm (World h e p c) = (out, World (h ++ [a']) e p' c) /\
    (forall rows cols, shape rows cols a -> shape rows cols a') /\
    ((a = [] \/ (finite_range (rand_min self) (rand_max self) = true /\
                 finite_range (- bw self) (bw self) = true)) ->
     out = Ok (length h) /\ a' = improvised_rows self e p a /\
     p' = (p + 4 * length a)%nat) /\
    (a <> [] -> (finite_range (rand_min self) (rand_max self) = false \/
                 finite_range (- bw self) (bw self) = false) ->
     out = Raised OverflowError).
Proof.
  intros Hh.
  assert (Hlt : (hm < length h)%nat) by by eapply lookup_lt_Some.
  destruct a as [|r a].
  { exists (Ok (length h)), [], p. split; [by apply improvise_empty|].
    split; [done|]. split; [|done]. intros _. split; [done|]. split; [done|]. simpl. lia. }
  destruct (finite_range (rand_min self) (rand_max self)) eqn:Hfin.
  - destruct (finite_range (- bw self) (bw self)) eqn:Hfinbw.
    + exists (Ok (length h)), (improvised_rows self e p (r :: a)), (p + 4 * length (r :: a))%nat.
      split; [by apply improvise_run|].
      split; [intros; by apply shape_improvised_rows|].
      split; [done|]. intros _ [?|?]; done.
    + exists (Raised OverflowError),
        ((if Qltb (hmcr self) (rng_samples e (S p))
          then replicate (length r) (rng_uniform e p (rand_min self) (rand_max self))
          else r) :: a), (p + 3)%nat.
      split; [|split; [|split]].
      * unfold improvise, deepcopy.
        unfold bind at 1. unfold bind at 1. unfold read_array at 1. simpl heap.
        rewrite Hh. unfold alloc_array, with_heap. simpl.
        unfold bind at 1. unfold len, bind at 1. unfold read_array. simpl heap.
        rewrite lookup_app_l by done. rewrite Hh. unfold ret at 1.
        cbn [length seq for_each].
        erewrite bind_raise; [reflexivity|].
        apply bind_raise.
        rewrite (improvise_row_overflow_shift (length h) 0 _ e p c (r :: a) r Hfin Hfinbw);
          [| by apply list_lookup_middle | done].
        by rewrite insert_appended.
      * intros rows cols [Hl Hc]. apply Forall_cons in Hc as [Hr Hc].
        split; [done|]. apply Forall_cons. split; [|done].
        destruct (Qltb _ _); [by rewrite length_replicate | done].
      * intros [?|[_ ?]]; done.
      * done.
  - exists (Raised OverflowError), (r :: a), p. split; [|split; [|split]].
    + unfold improvise, deepcopy.
      unfold bind at 1. unfold bind at 1. unfold read_array at 1. simpl heap.
      rewrite Hh. unfold alloc_array, with_heap. simpl.
      unfold bind at 1. unfold len, bind at 1. unfold read_array. simpl heap.
      rewrite lookup_app_l by done. rewrite Hh. unfold ret at 1.
      cbn [length seq for_each].
      erewrite bind_raise; [reflexivity|].
      apply bind_raise. by apply improvise_row_overflow.
    + done.
    + intros [?|[? _]]; done.
    + done.
Qed.

Lemma change_hm_ok_inv old_hm new_hm h e p c a b cols l w' :
  h !! old_hm = Some a -> h !! new_hm = Some b ->
  Forall (fun r => length r = cols) a -> Forall (fun r => length r = cols) b ->
  change_hm self old_hm new_hm (World h e p c) = (Ok l, w') ->
  l = old_hm /\
  w' = World (<[old_hm := replaced self a b]> h) e p (c ++ a ++ b) /\
  a <> [] /\ b <> [] /\ returns_on (f self) a /\ returns_on (f self) b.
Proof.
  intros Ha Hb Hca Hcb Hrun.
  destruct (eval_outcome self old_hm (World h e p c) a Ha)
    as [(Hnea & Hreta & Hoka)|(ea & calleda & _ & Hraise)].
  2:{ unfold change_hm in Hrun. erewrite bind_raise in Hrun by exact Hraise. done. }
  destruct (eval_outcome self new_hm (with_calls (calls (World h e p c) ++ a) (World h e p c))
              b Hb)
    as [(Hneb & Hretb & Hokb)|(eb & calledb & _ & Hraise)].
  2:{ unfold change_hm in Hrun. erewrite bind_run in Hrun by exact Hoka.
      erewrite bind_raise in Hrun by exact Hraise. done. }
  rewrite (change_hm_run self old_hm new_hm h e p c a b cols) in Hrun by done.
  by simplify_eq.
Qed.

End MoreOutcomes.

(** * The claims *)

Lemma example_samples_bounds k : 0 <= example_samples k /\ example_samples k < 1.
Proof.
  unfold example_samples.
  pose proof (Nat.mod_upper_bound (7 * k) 10 ltac:(lia)) as Hk.
  unfold Qle, Qlt. simpl. lia.
Qed.

Lemma example_machine_unit : unit_samples example_machine.
Proof. intros k. apply example_samples_bounds. Qed.

Lemma example_machine_uniform : uniform_in_range example_machine.
Proof.
  intros k low high Hlh. simpl.
  destruct (example_samples_bounds k) as [H0 H1].
  assert (0 <= (high - low) * example_samples k) by (apply Qmult_le_0_compat; lra).
  assert ((high - low) * example_samples k <= (high - low) * 1).
  { rewrite !(Qmult_comm (high - low)). apply Qmult_le_compat_r; lra. }
  lra.
Qed.

Lemma shape_example_old : shape 2 2 example_old.
Proof. split; [done|]. by repeat constructor. Qed.

Lemma shape_example_new : shape 2 2 example_new.
Proof. split; [done|]. by repeat constructor. Qed.

Lemma shape_example_tie : shape 2 2 example_tie.
Proof. split; [done|]. by repeat constructor. Qed.

Lemma sphere_float_valued cols : float_valued sphere cols.
Proof. intros r _. by eexists. Qed.

Lemma sphere_float_valued_defined cols : defined_on sphere cols.
Proof. intros r _. by eexists. Qed.

Lemma max_of_check xs i m :
  xs !! i = Some m -> forallb (fun y => Qle_bool y m) xs = true -> max_of xs m.
Proof.
  intros Hi Hall. split; [by eapply list_elem_of_lookup_2|].
  intros y Hy. rewrite forallb_forall in Hall.
  by apply Qle_bool_iff, Hall, list_elem_of_In.
Qed.

Lemma min_of_check xs i m :
  xs !! i = Some m -> forallb (fun y => Qle_bool m y) xs = true -> min_of xs m.
Proof.
  intros Hi Hall. split; [by eapply list_elem_of_lookup_2|].
  intros y Hy. rewrite forallb_forall in Hall.
  by apply Qle_bool_iff, Hall, list_elem_of_In.
Qed.

Example argmax_takes_first_of_ties :
  worst_index [2; 5; 5; 1] = 1%nat /\ best_index [2; 1; 5; 1] = 1%nat.
Proof. split; reflexivity. Qed.

(** ** [eval] *)

(** C5, as the program runs: with the objective [min(1, abs(x[0]))] and the
    memory [[2], [0.5]] the first result is the [int] [1], so the results
    are stored as integers and [eval] returns [[1, 0]], although the
    objective returns [0.5] on the second harmony. *)
Theorem eval_casts_to_first_result :
  eval (clipped_search 2 0) 0 (example_world [[[2]; [1 # 2]]]) =
    (Ok [1; 0], World [[[2]; [1 # 2]]] example_machine 0 [[2]; [1 # 2]]) /\
  clipped [2] = Ok (PyInt 1) /\
  clipped [1 # 2] = Ok (PyFloat (1 # 2)).
Proof. repeat split; reflexivity. Qed.

(** ** [change_hm] *)

(** C1, as the program runs: the old memory [[0.5], [0.3]] has largest
    fitness [0.5]; the new memory [[2], [0.9]] has results [int 1] and
    [0.9], stored as [[1, 0]]; [0 < 0.5], so the worst old harmony is
    overwritten by [[0.9]] and the largest fitness rises to [0.9]. *)
Theorem change_hm_cast_raises_maximum :
  change_hm (clipped_search 2 0) 0 1
      (example_world [[[1 # 2]; [3 # 10]]; [[2]; [9 # 10]]]) =
    (Ok 0%nat,
     World [[[9 # 10]; [3 # 10]]; [[2]; [9 # 10]]] example_machine 0
           [[1 # 2]; [3 # 10]; [2]; [9 # 10]]) /\
  max_of (fitness clipped <$> [[1 # 2]; [3 # 10]]) (1 # 2) /\
  max_of (fitness clipped <$> [[9 # 10]; [3 # 10]]) (9 # 10) /\
  1 # 2 < 9 # 10.
Proof.
  split; [reflexivity|].
  split; [apply (max_of_check _ 0%nat); reflexivity|].
  split; [apply (max_of_check _ 0%nat); reflexivity|].
  reflexivity.
Qed.

(** C3, as the program runs: the smallest new fitness [0.5] is below the
    largest old fitness [0.95], and one row of the old memory is
    overwritten, but with [[0.9]], the row at index 1 of the new memory,
    and not with [[0.5]], the row at the index (2) of smallest new fitness:
    the new results [1, 0.9, 0.5] are stored as [[1, 0, 0]]. *)
Theorem change_hm_cast_picks_wrong_row :
  change_hm (clipped_search 3 0) 0 1
      (example_world [[[19 # 20]; [3 # 10]; [3 # 10]]; [[2]; [9 # 10]; [1 # 2]]]) =
    (Ok 0%nat,
     World [[[9 # 10]; [3 # 10]; [3 # 10]]; [[2]; [9 # 10]; [1 # 2]]] example_machine 0
           [[19 # 20]; [3 # 10]; [3 # 10]; [2]; [9 # 10]; [1 # 2]]) /\
  min_of (fitness clipped <$> [[2]; [9 # 10]; [1 # 2]]) (1 # 2) /\
  max_of (fitness clipped <$> [[19 # 20]; [3 # 10]; [3 # 10]]) (19 # 20) /\
  1 # 2 < 19 # 20 /\
  first_min_index (fitness clipped <$> [[2]; [9 # 10]; [1 # 2]]) 2 /\
  results clipped [[2]; [9 # 10]; [1 # 2]] = [1; 0; 0].
Proof.
  split; [reflexivity|].
  split; [apply (min_of_check _ 2%nat); reflexivity|].
  split; [apply (max_of_check _ 0%nat); reflexivity|].
  split; [reflexivity|].
  split; [|reflexivity].
  replace 2%nat with (best_index (fitness clipped <$> [[2]; [9 # 10]; [1 # 2]]))
    by reflexivity.
  by apply best_index_spec.
Qed.

(** C4, as the program runs: every harmony of the new memory [[2], [-0.5]]
    has a fitness ([1] and [0.5]) at least the largest old fitness [0.5],
    yet the results are stored as [[1, 0]], [0 < 0.5], and the first row of
    the old memory [[0.5], [0.5]] is overwritten by [[-0.5]]. *)
Theorem change_hm_cast_replaces_without_improvement :
  change_hm (clipped_search 2 0) 0 1
      (example_world [[[1 # 2]; [1 # 2]]; [[2]; [- (1 # 2)]]]) =
    (Ok 0%nat,
     World [[[- (1 # 2)]; [1 # 2]]; [[2]; [- (1 # 2)]]] example_machine 0
           [[1 # 2]; [1 # 2]; [2]; [- (1 # 2)]]) /\
  max_of (fitness clipped <$> [[1 # 2]; [1 # 2]]) (1 # 2) /\
  (forall r, r ∈ [[2]; [- (1 # 2)]] -> 1 # 2 <= fitness clipped r).
Proof.
  split; [reflexivity|].
  split; [apply (max_of_check _ 0%nat); reflexivity|].
  intros r Hr. apply Qle_bool_iff.
  apply list_elem_of_In in Hr. revert r Hr. apply forallb_forall. reflexivity.
Qed.

(** ** [improvise] *)

(** C2, as the program runs: on the [2 x 2] memory with rows [[1/4, 3/4]]
    the source consumes four draws per row, one of them compared with
    [hmcr] and one with [par], and overwrites and shifts both coordinates
    of the first row; with decisions per coordinate the second coordinate,
    whose own draws exceed neither rate, keeps [3/4]. *)
Theorem improvise_is_not_per_coordinate :
  exists a',
    improvise (example_search 3) 0
        (example_world [[[1 # 4; 3 # 4]; [1 # 4; 3 # 4]]]) =
      (Ok 1%nat,
       World [[[1 # 4; 3 # 4]; [1 # 4; 3 # 4]]; a'] example_machine 8 []) /\
    lowest_terms a' = [[- 2 # 5; - 2 # 5]; [1 # 4; 3 # 4]] /\
    lowest_terms
      (per_coordinate_rows (example_search 3) example_machine 0
         [[1 # 4; 3 # 4]; [1 # 4; 3 # 4]]) =
      [[- 2 # 5; 3 # 4]; [1 # 4; 3 # 4]] /\
    shape (Z.to_nat (hms (example_search 3))) (Z.to_nat (d (example_search 3)))
      [[1 # 4; 3 # 4]; [1 # 4; 3 # 4]].
Proof.
  eexists. split; [vm_compute; reflexivity|].
  split; [vm_compute; reflexivity|].
  split; [vm_compute; reflexivity|].
  split; [reflexivity | by repeat constructor].
Qed.

(** C7, as stated, fails: with a sampling range wider than the doubles
    [improvise] of the memory [[0]] raises [OverflowError] after it has made
    its copy, and returns nothing. *)
Lemma improvise_overflows :
  shape 1 1 [[0]] /\
  improvise (overflowing_search 0) 0 (example_world [[[0]]]) =
    (Raised OverflowError, World [[[0]]; [[0]]] example_machine 0 []).
Proof. split; [split; [done | by repeat constructor] | reflexivity]. Qed.

(** C7, amended: whatever the outcome of [improvise], every array allocated
    before the call, the input among them, holds the values it held before.
    When it returns, the result is a freshly allocated memory of the shape
    of the input; and it returns when the sampling range and the shift
    range are finite. *)
Theorem improvise_leaves_input (self : HarmonySearch) hm h e p c a rows cols :
  h !! hm = Some a -> shape rows cols a ->
  (forall out w',
     improvise self hm (World h e p c) = (out, w') ->
     heap w' !! hm = Some a /\
     (forall l x, h !! l = Some x -> heap w' !! l = Some x) /\
     (forall new_hm, out = Ok new_hm ->
        new_hm <> hm /\ h !! new_hm = None /\
        exists a', heap w' !! new_hm = Some a' /\ shape rows cols a')) /\
  (finite_range (rand_min self) (rand_max self) = true ->
   finite_range (- bw self) (bw self) = true ->
   exists new_hm w' a',
     improvise self hm (World h e p c) = (Ok new_hm, w') /\
     new_hm <> hm /\ h !! new_hm = None /\
     heap w' !! new_hm = Some a' /\ shape rows cols a' /\
     heap w' !! hm = Some a /\
     forall l x, h !! l = Some x -> heap w' !! l = Some x).
Proof.
  intros Hh Ha.
  assert (Hlt : (hm < length h)%nat) by by eapply lookup_lt_Some.
  destruct (improvise_outcome self hm h e p c a Hh)
    as (out0 & a' & p' & Hrun & Hshape & Hok & Hraise).
  split.
  - intros out w' Hrun'. rewrite Hrun in Hrun'. simplify_eq. simpl.
    split; [by apply lookup_app_l_Some|].
    split; [intros l x Hl; by apply lookup_app_l_Some|].
    intros new_hm ->.
    assert (new_hm = length h) as ->.
    { destruct a as [|r a].
      - destruct Hok as [Hout _]; [by left|]. by simplify_eq.
      - destruct (finite_range (rand_min self) (rand_max self)) eqn:E1;
          [destruct (finite_range (- bw self) (bw self)) eqn:E2|].
        + destruct Hok as [Hout _]; [by right|]. by simplify_eq.
        + discriminate (Hraise ltac:(done) ltac:(by right)).
        + discriminate (Hraise ltac:(done) ltac:(by left)). }
    split; [lia|]. split; [by apply lookup_ge_None_2|].
    exists a'. split; [by apply list_lookup_middle | by apply Hshape].
  - intros Hfin Hfinbw.
    destruct Hok as (-> & -> & ->); [by right|].
    eexists _, _, _. split; [exact Hrun|]. simpl.
    split; [lia|]. split; [by apply lookup_ge_None_2|].
    split; [by apply list_lookup_middle|].
    split; [by apply shape_improvised_rows|].
    split; [by apply lookup_app_l_Some|].
    intros l x Hl. by apply lookup_app_l_Some.
Qed.

Lemma improvise_leaves_input_witness :
  exists new_hm w' a',
    improvise (example_search 3) 0 (example_world [example_old]) = (Ok new_hm, w') /\
    new_hm <> 0%nat /\ [example_old] !! new_hm = None /\
    heap w' !! new_hm = Some a' /\ shape 2 2 a' /\
    heap w' !! 0%nat = Some example_old /\
    forall l x, [example_old] !! l = Some x -> heap w' !! l = Some x.
Proof.
  destruct (improvise_leaves_input (example_search 3) 0%nat [example_old]
              example_machine 0 [] example_old 2 2) as [_ Hreturns];
    [reflexivity | exact shape_example_old |].
  apply Hreturns; reflexivity.
Defined.

(** ** [generate_hm] *)

(** C6, as stated, fails: with [hms = d = 1] and
    [rand_min = -2^1023 < rand_max = 2^1023] the difference of the bounds is
    not a finite double and [np.random.uniform] raises [OverflowError]. *)
Lemma generate_hm_overflows :
  (0 < hms (overflowing_search 0))%Z /\ (0 < d (overflowing_search 0))%Z /\
  rand_min (overflowing_search 0) < rand_max (overflowing_search 0) /\
  generate_hm (overflowing_search 0) (example_world []) =
    (Raised OverflowError, example_world []).
Proof. repeat split; reflexivity. Qed.

(** C6, amended: with positive [hms] and [d] of a size NumPy allocates,
    [rand_min < rand_max] and a finite difference of the two, [generate_hm]
    returns a fresh array of exactly [hms] rows of exactly [d] entries, every
    entry within [[rand_min, rand_max]].  The generator's uniform draws are
    taken to lie in the range they are asked for. *)
Theorem generate_hm_shape_and_range (self : HarmonySearch) h e p c :
  (0 < hms self)%Z -> (0 < d self)%Z -> rand_min self < rand_max self ->
  finite_range (rand_min self) (rand_max self) = true ->
  valid_shape (hms self) (d self) = true ->
  uniform_in_range e ->
  exists a,
    generate_hm self (World h e p c) =
      (Ok (length h),
       World (h ++ [a]) e (p + Z.to_nat (hms self) * Z.to_nat (d self)) c) /\
    length a = Z.to_nat (hms self) /\
    forall r, r ∈ a ->
      length r = Z.to_nat (d self) /\
      forall x, x ∈ r -> rand_min self <= x /\ x <= rand_max self.
Proof.
  intros Hhms Hd Hrange Hfin Hshape He.
  eexists. split; [by apply generate_hm_run|].
  split; [apply length_drawn_rows|].
  intros r (q & ->)%drawn_rows_elem. split; [apply length_draws|].
  intros x Hx. eapply draws_in_range; [done | lra | done].
Qed.

Lemma generate_hm_shape_and_range_witness :
  exists a,
    generate_hm (example_search 3) (example_world []) =
      (Ok 0%nat, World ([] ++ [a]) example_machine 4 []) /\
    length a = 2%nat /\
    forall r, r ∈ a ->
      length r = 2%nat /\ forall x, x ∈ r -> 0 <= x /\ x <= 1.
Proof.
  apply (generate_hm_shape_and_range (example_search 3) [] example_machine 0 []);
    [reflexivity | reflexivity | reflexivity | reflexivity | reflexivity
    | exact example_machine_uniform].
Defined.

(** ** The size of the memory *)

Lemma bind_ok_inv {A B} (m : M A) (k : A -> M B) w b w'' :
  (x <- m ;; k x) w = (Ok b, w'') ->
  exists a w', m w = (Ok a, w') /\ k a w' = (Ok b, w'').
Proof.
  unfold bind. destruct (m w) as [[a|e] w'] eqn:E; [|done].
  intros Hk. by exists a, w'.
Qed.

Lemma generate_hm_ok_inv (self : HarmonySearch) h e p c l w' :
  generate_hm self (World h e p c) = (Ok l, w') ->
  finite_range (rand_min self) (rand_max self) = true /\
  valid_shape (hms self) (d self) = true /\
  l = length h /\
  w' = World (h ++ [drawn_rows e (rand_min self) (rand_max self) p
                      (Z.to_nat (hms self)) (Z.to_nat (d self))])
             e (p + Z.to_nat (hms self) * Z.to_nat (d self)) c.
Proof.
  intros Hrun.
  destruct (finite_range (rand_min self) (rand_max self)) eqn:Hfin.
  - destruct (valid_shape (hms self) (d self)) eqn:Hshape.
    + rewrite generate_hm_run in Hrun by done. by simplify_eq.
    + by rewrite generate_hm_invalid_shape in Hrun.
  - by rewrite generate_hm_overflow in Hrun.
Qed.

Lemma improvise_ok_inv (self : HarmonySearch) hm h e p c a l w' :
  h !! hm = Some a ->
  improvise self hm (World h e p c) = (Ok l, w') ->
  l = length h /\
  exists a' p', w' = World (h ++ [a']) e p' c /\
    forall rows cols, shape rows cols a -> shape rows cols a'.
Proof.
  intros Hh Hrun.
  destruct (improvise_outcome self hm h e p c a Hh)
    as (out0 & a' & p' & Hrun0 & Hshape & Hok & Hraise).
  rewrite Hrun0 in Hrun. simplify_eq.
  split; [|by exists a', p'].
  destruct a as [|r a].
  - destruct Hok as [Hout _]; [by left|]. by simplify_eq.
  - destruct (finite_range (rand_min self) (rand_max self)) eqn:E1;
      [destruct (finite_range (- bw self) (bw self)) eqn:E2|].
    + destruct Hok as [Hout _]; [by right|]. by simplify_eq.
    + discriminate (Hraise ltac:(done) ltac:(by right)).
    + discriminate (Hraise ltac:(done) ltac:(by left)).
Qed.

Lemma iteration_ok_inv (self : HarmonySearch) hm res h e p c a rows cols l res' w' :
  h !! hm = Some a -> shape rows cols a ->
  iteration self (hm, res) (World h e p c) = (Ok (l, res'), w') ->
  l = hm /\ exists a', heap w' !! hm = Some a' /\ shape rows cols a'.
Proof.
  intros Hh Ha Hrun.
  assert (Hlt : (hm < length h)%nat) by by eapply lookup_lt_Some.
  unfold iteration in Hrun.
  apply bind_ok_inv in Hrun as (new_hm & w1 & Himp & Hrun).
  apply (improvise_ok_inv self hm h e p c a) in Himp as (-> & a1 & p1 & -> & Hshape1);
    [|done].
  apply bind_ok_inv in Hrun as (l1 & w2 & Hch & Hrun).
  apply (change_hm_ok_inv self hm (length h) _ e p1 c a a1 cols) in Hch
    as (-> & -> & _); [| by apply lookup_app_l_Some | by apply list_lookup_middle
                       | apply Ha | by apply (Hshape1 rows cols) ].
  apply bind_ok_inv in Hrun as (rs & w3 & Hev & Hrun).
  assert (Hnext : heap (World (<[hm := replaced self a a1]> (h ++ [a1])) e p1
                              (c ++ a ++ a1)) !! hm = Some (replaced self a a1)).
  { simpl. apply list_lookup_insert_eq. rewrite length_app. lia. }
  destruct (eval_ok_inv self hm _ _ rs w3 Hnext Hev) as (_ & _ & _ & Hw3).
  unfold ret in Hrun. simplify_eq. split; [done|].
  eexists. split.
  - simpl. apply list_lookup_insert_eq. rewrite length_app. lia.
  - apply shape_replaced; [done | by apply Hshape1].
Qed.

Lemma search_loop_ok_inv (self : HarmonySearch) rows cols n : forall hm res w a l res' w',
  heap w !! hm = Some a -> shape rows cols a ->
  repeat_loop n (iteration self) (hm, res) w = (Ok (l, res'), w') ->
  l = hm /\ exists a', heap w' !! hm = Some a' /\ shape rows cols a'.
Proof.
  induction n as [|n IH]; intros hm res w a l res' w' Hh Ha Hrun.
  - simpl in Hrun. unfold ret in Hrun. simplify_eq. split; [done|]. by exists a.
  - simpl in Hrun. apply bind_ok_inv in Hrun as ([l1 res1] & w1 & Hit & Hrun).
    destruct w as [h e p c]. simpl in Hh.
    apply (iteration_ok_inv self hm res h e p c a rows cols) in Hit
      as (-> & a1 & Hh1 & Ha1); [|done|done].
    by apply (IH hm res1 w1 a1 l res' w').
Qed.

(** C9, as stated, fails: with [hms = d = 1] and a shift range wider than
    the doubles [generate_hm] makes a memory of one row, and [improvise]
    applied to it raises [OverflowError] and returns no memory. *)
Lemma improvise_overflows_in_the_loop :
  (0 < hms (wide_shift_search 1))%Z /\ (0 < d (wide_shift_search 1))%Z /\
  exists a0 w w',
    generate_hm (wide_shift_search 1) (example_world []) = (Ok 0%nat, w) /\
    heap w !! 0%nat = Some a0 /\ shape 1 1 a0 /\
    improvise (wide_shift_search 1) 0 w = (Raised OverflowError, w').
Proof.
  split; [done|]. split; [done|].
  eexists _, _, _. split; [reflexivity|]. split; [reflexivity|].
  split; [split; [done | by repeat constructor] | reflexivity].
Qed.

(** C9, amended: the memory made by [generate_hm] has [hms] rows of [d]
    entries, and [improvise], [change_hm] and any number of iterations of
    the search loop leave a memory of [hms] rows of [d] entries.  This
    holds of every run that returns; and the runs return when the sampling
    range and the shift range are finite, NumPy allocates the size and the
    objective returns a float on every harmony. *)
Theorem memory_size_is_invariant (self : HarmonySearch) h e p c :
  (0 < hms self)%Z -> (0 < d self)%Z ->
  let rows := Z.to_nat (hms self) in
  let cols := Z.to_nat (d self) in
  (* generate_hm *)
  ((forall l w',
      generate_hm self (World h e p c) = (Ok l, w') ->
      exists a0, heap w' !! l = Some a0 /\ shape rows cols a0) /\
   (finite_range (rand_min self) (rand_max self) = true ->
    valid_shape (hms self) (d self) = true ->
    exists a0,
      generate_hm self (World h e p c) =
        (Ok (length h), World (h ++ [a0]) e (p + rows * cols) c) /\
      shape rows cols a0)) /\
  (* improvise *)
  (forall hm w a,
     heap w !! hm = Some a -> shape rows cols a ->
     (forall out w',
        improvise self hm w = (out, w') ->
        heap w' !! hm = Some a /\
        forall l, out = Ok l ->
          exists a', heap w' !! l = Some a' /\ shape rows cols a') /\
     (finite_range (rand_min self) (rand_max self) = true ->
      finite_range (- bw self) (bw self) = true ->
      exists new_hm w' a',
        improvise self hm w = (Ok new_hm, w') /\
        heap w' !! new_hm = Some a' /\ shape rows cols a' /\
        heap w' !! hm = Some a)) /\
  (* change_hm *)
  (forall old_hm new_hm w a b,
     heap w !! old_hm = Some a -> heap w !! new_hm = Some b ->
     shape rows cols a -> shape rows cols b ->
     (forall l w',
        change_hm self old_hm new_hm w = (Ok l, w') ->
        l = old_hm /\
        exists a', heap w' !! old_hm = Some a' /\ shape rows cols a') /\
     (float_valued (f self) cols ->
      exists w' a',
        change_hm self old_hm new_hm w = (Ok old_hm, w') /\
        heap w' !! old_hm = Some a' /\ shape rows cols a')) /\
  (* the loop *)
  (forall n,
     (forall l res w',
        (hm <- generate_hm self ;;
         results <- eval self hm ;;
         repeat_loop n (iteration self) (hm, results)) (World h e p c) =
          (Ok (l, res), w') ->
        exists a', heap w' !! l = Some a' /\ shape rows cols a') /\
     (finite_range (rand_min self) (rand_max self) = true ->
      finite_range (- bw self) (bw self) = true ->
      valid_shape (hms self) (d self) = true ->
      float_valued (f self) cols ->
      exists res w' a',
        (hm <- generate_hm self ;;
         results <- eval self hm ;;
         repeat_loop n (iteration self) (hm, results)) (World h e p c) =
          (Ok (length h, res), w') /\
        heap w' !! length h = Some a' /\ shape rows cols a')).
Proof.
  intros Hhms Hd rows cols.
  assert (Hrows : (0 < rows)%nat) by (unfold rows; lia).
  pose proof (shape_drawn_rows e (rand_min self) (rand_max self) p rows cols) as Ha0.
  split; [|split; [|split]].
  - split.
    + intros l w' Hrun. apply generate_hm_ok_inv in Hrun as (_ & _ & -> & ->).
      eexists. split; [by apply list_lookup_middle | done].
    + intros Hfin Hshape. eexists. split; [by apply generate_hm_run | done].
  - intros hm [h1 e1 p1 c1] a Ha Hsa. simpl in Ha.
    destruct (improvise_outcome self hm h1 e1 p1 c1 a Ha)
      as (out0 & a' & p' & Hrun & Hshape & Hok & Hraise).
    split.
    + intros out w' Hrun'. split.
      * rewrite Hrun in Hrun'. simplify_eq. simpl. by apply lookup_app_l_Some.
      * intros l ->.
        apply (improvise_ok_inv self hm h1 e1 p1 c1 a) in Hrun'
          as (-> & a1 & p1' & -> & Hs1); [|done].
        exists a1. split; [by apply list_lookup_middle | by apply Hs1].
    + intros Hfin Hfinbw. destruct Hok as (-> & -> & ->); [by right|].
      eexists _, _, _. split; [exact Hrun|]. simpl.
      split; [by apply list_lookup_middle|].
      split; [by apply shape_improvised_rows | by apply lookup_app_l_Some].
  - intros old_hm new_hm [h1 e1 p1 c1] a b Ha Hb Hsa Hsb. simpl in Ha, Hb.
    assert (Hlt : (old_hm < length h1)%nat) by by eapply lookup_lt_Some.
    split.
    + intros l w' Hrun.
      apply (change_hm_ok_inv self old_hm new_hm h1 e1 p1 c1 a b cols) in Hrun
        as (-> & -> & _); [| done | done | apply Hsa | apply Hsb].
      split; [done|]. eexists. split; [by apply list_lookup_insert_eq|].
      by apply shape_replaced.
    + intros Hf. eexists _, _. split.
      * eapply (change_hm_run self old_hm new_hm h1 e1 p1 c1 a b cols);
          [ done | done | by eapply shape_nonempty | by eapply shape_nonempty
          | eapply float_valued_returns_on; [done | apply Hsa]
          | eapply float_valued_returns_on; [done | apply Hsb]
          | apply Hsa | apply Hsb ].
      * split; [by apply list_lookup_insert_eq | by apply shape_replaced].
  - intros n. split.
    + intros l res w' Hrun.
      apply bind_ok_inv in Hrun as (hm & w0 & Hgen & Hrun).
      apply generate_hm_ok_inv in Hgen as (_ & _ & -> & ->).
      apply bind_ok_inv in Hrun as (rs & w1 & Hev & Hrun).
      eapply (eval_ok_inv self (length h)) in Hev as (_ & _ & _ & Hw1);
        [|by apply list_lookup_middle].
      subst w1.
      eapply (search_loop_ok_inv self rows cols n) in Hrun as (-> & Hshape);
        [done | by apply list_lookup_middle | done].
    + intros Hfin Hfinbw Hshape Hfloat.
      pose proof (float_valued_defined_on _ _ Hfloat) as Hf.
      destruct (search_loop_run self (length h) e rows cols n
                  (h ++ [drawn_rows e (rand_min self) (rand_max self) p rows cols])
                  (p + rows * cols)%nat
                  (c ++ drawn_rows e (rand_min self) (rand_max self) p rows cols)
                  _ Hfin ltac:(done) Hf
                  ltac:(by apply list_lookup_middle) Ha0 Hrows)
        as (h' & Hloop & Hhm & _).
      exists (results (f self) (memory_after self e n (p + rows * cols)
                (drawn_rows e (rand_min self) (rand_max self) p rows cols))),
        (World h' e (p + rows * cols + n * (4 * rows))
           ((c ++ drawn_rows e (rand_min self) (rand_max self) p rows cols)
              ++ calls_during self e n (p + rows * cols)
                   (drawn_rows e (rand_min self) (rand_max self) p rows cols))),
        (memory_after self e n (p + rows * cols)
           (drawn_rows e (rand_min self) (rand_max self) p rows cols)).
      split; [|split; [exact Hhm|]].
      * step ltac:(by apply generate_hm_run).
        step ltac:(apply eval_run;
                   [ by apply list_lookup_middle | by eapply shape_nonempty
                   | eapply defined_on_returns_on; [done | apply Ha0] ]).
        exact Hloop.
      * by apply shape_memory_after.
Qed.

Lemma memory_size_is_invariant_witness :
  exists res w' a',
    (hm <- generate_hm (example_search 3) ;;
     results <- eval (example_search 3) hm ;;
     repeat_loop 5 (iteration (example_search 3)) (hm, results))
      (example_world []) = (Ok (0%nat, res), w') /\
    heap w' !! 0%nat = Some a' /\ shape 2 2 a'.
Proof.
  destruct (memory_size_is_invariant (example_search 3) [] example_machine 0 [])
    as (_ & _ & _ & Hloop); [reflexivity | reflexivity |].
  destruct (Hloop 5%nat) as [_ Hreturns].
  apply Hreturns; [reflexivity | reflexivity | reflexivity | apply sphere_float_valued].
Defined.

(** ** [find_harmony] *)

Lemma length_calls_during (self : HarmonySearch) e rows cols n : forall p a,
  shape rows cols a ->
  length (calls_during self e n p a) = (n * (3 * rows))%nat.
Proof.
  induction n as [|n IH]; intros p a Ha; [done|].
  cbn [calls_during]. rewrite !length_app.
  rewrite (IH _ _ (shape_next_memory self e p _ _ _ Ha)).
  destruct (shape_next_memory self e p _ _ _ Ha) as [-> _].
  destruct (shape_improvised_rows self e p _ _ _ Ha) as [-> _].
  destruct Ha as [-> _]. lia.
Qed.

(** C8, as stated, fails: with [max_iter = 1], [hms = d = 1] and a sampling
    range wider than the doubles, [find_harmony] raises [OverflowError] in
    [generate_hm] and returns nothing. *)
Lemma find_harmony_overflows :
  (1 <= max_iter (overflowing_search 1))%Z /\
  find_harmony (overflowing_search 1) (example_world []) =
    (Raised OverflowError, example_world []).
Proof. split; [discriminate | reflexivity]. Qed.

(** C8, amended: with [max_iter >= 1], positive [hms] and [d] of a size
    NumPy allocates, finite sampling ranges and an objective that returns a
    float on every harmony, [find_harmony] generates the memory, evaluates
    it, runs the iteration (improvise, then [change_hm], then a full
    evaluation) exactly [max_iter] times whatever the fitness values are,
    and returns the row of [d] entries at the first index of smallest
    fitness in the final memory.  The log of the calls of the objective
    shows the evaluations: the initial memory first, then for every
    iteration the memory, the improvised memory and the updated memory.
    Every iteration consumes [4 * hms] draws and allocates one array. *)
Theorem find_harmony_iterates_max_iter_times (self : HarmonySearch) h e p c :
  (0 < hms self)%Z -> (0 < d self)%Z -> (1 <= max_iter self)%Z ->
  finite_range (rand_min self) (rand_max self) = true ->
  finite_range (- bw self) (bw self) = true ->
  valid_shape (hms self) (d self) = true ->
  float_valued (f self) (Z.to_nat (d self)) ->
  let rows := Z.to_nat (hms self) in
  let cols := Z.to_nat (d self) in
  let n := Z.to_nat (max_iter self) in
  let a0 := drawn_rows e (rand_min self) (rand_max self) p rows cols in
  let final := memory_after self e n (p + rows * cols) a0 in
  exists h' best_i row,
    find_harmony self (World h e p c) =
      (Ok row,
       World h' e (p + rows * cols + n * (4 * rows))
             ((c ++ a0) ++ calls_during self e n (p + rows * cols) a0)) /\
    generate_hm self (World h e p c) =
      (Ok (length h), World (h ++ [a0]) e (p + rows * cols) c) /\
    eval self (length h) (World (h ++ [a0]) e (p + rows * cols) c) =
      (Ok (fitness (f self) <$> a0), World (h ++ [a0]) e (p + rows * cols) (c ++ a0)) /\
    repeat_loop n (iteration self) (length h, fitness (f self) <$> a0)
        (World (h ++ [a0]) e (p + rows * cols) (c ++ a0)) =
      (Ok (length h, fitness (f self) <$> final),
       World h' e (p + rows * cols + n * (4 * rows))
             ((c ++ a0) ++ calls_during self e n (p + rows * cols) a0)) /\
    length (calls_during self e n (p + rows * cols) a0) = (n * (3 * rows))%nat /\
    h' !! length h = Some final /\
    length h' = (length h + 1 + n)%nat /\
    first_min_index (fitness (f self) <$> final) best_i /\
    final !! best_i = Some row /\ length row = cols.
Proof.
  intros Hhms Hd Hiter Hfin Hfinbw Hshape Hf rows cols n a0 final.
  assert (Hrows : (0 < rows)%nat) by (unfold rows; lia).
  assert (Ha0 : shape rows cols a0) by apply shape_drawn_rows.
  assert (Hsf : shape rows cols final) by by apply shape_memory_after.
  pose proof (float_valued_defined_on _ _ Hf) as Hdef.
  destruct (find_harmony_run self h e p c Hfin ltac:(done) Hshape Hhms Hdef)
    as (row & h' & Hloop & Hfind & Hfinal & Hlen & _ & Hrow).
  fold rows cols n a0 final in Hloop, Hfind, Hfinal, Hlen, Hrow.
  rewrite (results_float (f self) cols a0 Hf ltac:(apply Ha0)) in Hloop.
  rewrite (results_float (f self) cols final Hf ltac:(apply Hsf)) in Hloop, Hrow.
  exists h', (best_index (fitness (f self) <$> final)), row.
  split; [done|]. split; [by apply generate_hm_run|].
  split.
  { rewrite <- (results_float (f self) cols a0 Hf ltac:(apply Ha0)).
    apply (eval_run self (length h) (World (h ++ [a0]) e (p + rows * cols) c));
      [ by apply list_lookup_middle | by eapply shape_nonempty
      | eapply defined_on_returns_on; [done | apply Ha0] ]. }
  split; [done|].
  split; [by eapply length_calls_during|].
  split; [done|]. split; [done|].
  split.
  { apply best_index_spec. intros Hnil%fmap_nil_inv.
    by eapply shape_nonempty in Hnil. }
  split; [done | by eapply shape_lookup].
Qed.

Lemma find_harmony_iterates_max_iter_times_witness :
  exists h' best_i row,
    find_harmony (example_search 3) (example_world []) =
      (Ok row,
       World h' example_machine 28
             (([] ++ drawn_rows example_machine 0 1 0 2 2)
                ++ calls_during (example_search 3) example_machine 3 4
                     (drawn_rows example_machine 0 1 0 2 2))) /\
    length (calls_during (example_search 3) example_machine 3 4
              (drawn_rows example_machine 0 1 0 2 2)) = 18%nat /\
    length h' = 4%nat /\
    first_min_index
      (fitness sphere <$> memory_after (example_search 3) example_machine 3 4
                            (drawn_rows example_machine 0 1 0 2 2)) best_i /\
    length row = 2%nat.
Proof.
  destruct (find_harmony_iterates_max_iter_times (example_search 3) []
              example_machine 0 [])
    as (h' & best_i & row & Hfind & _ & _ & _ & Hcalls & _ & Hlen & Hmin & _ & Hrow);
    [reflexivity | reflexivity | discriminate | reflexivity | reflexivity
    | reflexivity | apply sphere_float_valued |].
  exists h', best_i, row.
  split; [exact Hfind|].
  split; [exact Hcalls|].
  split; [exact Hlen|].
  split; [exact Hmin|exact Hrow].
Defined.

(** C10, as stated, fails: with [max_iter = 0], [hms = d = 1] and a sampling
    range wider than the doubles, [find_harmony] raises [OverflowError] and
    returns nothing. *)
Lemma find_harmony_overflows_without_iterations :
  max_iter (overflowing_search 0) = 0%Z /\
  find_harmony (overflowing_search 0) (example_world []) =
    (Raised OverflowError, example_world []).
Proof. split; reflexivity. Qed.

(** C10, amended: with [max_iter = 0], positive [hms] and [d] of a size
    NumPy allocates, a finite sampling range and an objective that returns a
    float on every harmony, the loop body never runs.  The objective is
    called on the rows of the freshly generated memory, once each and on
    nothing else: the evaluation before the loop is the only one, and
    [find_harmony] returns the row at the first index of smallest fitness
    of that memory. *)
Theorem find_harmony_without_iterations (self : HarmonySearch) h e p c :
  (0 < hms self)%Z -> (0 < d self)%Z -> max_iter self = 0%Z ->
  finite_range (rand_min self) (rand_max self) = true ->
  valid_shape (hms self) (d self) = true ->
  float_valued (f self) (Z.to_nat (d self)) ->
  let rows := Z.to_nat (hms self) in
  let cols := Z.to_nat (d self) in
  let a0 := drawn_rows e (rand_min self) (rand_max self) p rows cols in
  exists best_i row,
    find_harmony self (World h e p c) =
      (Ok row, World (h ++ [a0]) e (p + rows * cols) (c ++ a0)) /\
    generate_hm self (World h e p c) =
      (Ok (length h), World (h ++ [a0]) e (p + rows * cols) c) /\
    eval self (length h) (World (h ++ [a0]) e (p + rows * cols) c) =
      (Ok (fitness (f self) <$> a0), World (h ++ [a0]) e (p + rows * cols) (c ++ a0)) /\
    shape rows cols a0 /\
    first_min_index (fitness (f self) <$> a0) best_i /\
    a0 !! best_i = Some row /\
    min_of (fitness (f self) <$> a0) (fitness (f self) row).
Proof.
  intros Hhms Hd Hiter Hfin Hshape Hf rows cols a0.
  assert (Hrows : (0 < rows)%nat) by (unfold rows; lia).
  assert (Ha0 : shape rows cols a0) by apply shape_drawn_rows.
  pose proof (float_valued_defined_on _ _ Hf) as Hdef.
  destruct (find_harmony_run self h e p c Hfin ltac:(lia) Hshape Hhms Hdef)
    as (row & h' & Hloop & Hfind & _ & _ & _ & Hrow).
  rewrite Hiter in Hloop, Hfind, Hrow. simpl in Hloop, Hfind, Hrow.
  fold rows cols a0 in Hloop, Hfind, Hrow.
  unfold ret in Hloop. simplify_eq.
  rewrite (results_float (f self) cols a0 Hf ltac:(apply Ha0)) in Hrow.
  assert (Hne : fitness (f self) <$> a0 <> []).
  { intros Hnil%fmap_nil_inv. by eapply shape_nonempty in Hnil. }
  exists (best_index (fitness (f self) <$> a0)), row.
  split. { rewrite Hfind. do 2 f_equal; [lia | by rewrite app_nil_r]. }
  split; [by apply generate_hm_run|].
  split.
  { rewrite <- (results_float (f self) cols a0 Hf ltac:(apply Ha0)).
    apply (eval_run self (length h) (World (h ++ [a0]) e (p + rows * cols) c));
      [ by apply list_lookup_middle | by eapply shape_nonempty
      | eapply defined_on_returns_on; [done | apply Ha0] ]. }
  split; [done|].
  pose proof (best_index_spec _ Hne) as Hspec.
  split; [done|]. split; [done|].
  destruct (first_min_index_min _ _ Hspec) as (m & Hm & Hmin).
  rewrite list_lookup_fmap, Hrow in Hm. simpl in Hm. by simplify_eq.
Qed.


Lemma find_harmony_without_iterations_witness :
  exists best_i row,
    find_harmony (example_search 0) (example_world []) =
      (Ok row, World ([] ++ [drawn_rows example_machine 0 1 0 2 2]) example_machine 4
                     ([] ++ drawn_rows example_machine 0 1 0 2 2)) /\
    first_min_index (fitness sphere <$> drawn_rows example_machine 0 1 0 2 2) best_i /\
    drawn_rows example_machine 0 1 0 2 2 !! best_i = Some row /\
    min_of (fitness sphere <$> drawn_rows example_machine 0 1 0 2 2) (fitness sphere row).
Proof.
  destruct (find_harmony_without_iterations (example_search 0) [] example_machine 0 [])
    as (best_i & row & Hfind & _ & _ & _ & Hfirst & Hrow & Hmin);
    [reflexivity | reflexivity | reflexivity | reflexivity | reflexivity
    | apply sphere_float_valued |].
  exists best_i, row.
  split; [exact Hfind|]. split; [exact Hfirst|]. split; [exact Hrow|exact Hmin].
Defined.

(** * Further properties *)

(** ** The cast of stored results *)

Lemma cast_to_self v : cast_to v v = value v.
Proof. by destruct v. Qed.

Lemma cast_to_int z v : cast_to (PyInt z) v = inject_Z (trunc (value v)).
Proof. destruct v as [z'|q]; simpl; [by rewrite trunc_inject_Z | done]. Qed.

Lemma cast_to_mono first v1 v2 :
  value v1 <= value v2 -> cast_to first v1 <= cast_to first v2.
Proof.
  intros Hle. destruct first as [z|q]; [|done].
  rewrite !cast_to_int, <- Zle_Qle. by apply trunc_le.
Qed.

Lemma cast_to_lt_int first v k :
  cast_to first v < inject_Z k -> value v < inject_Z k.
Proof.
  destruct first as [z|q]; [|done].
  rewrite cast_to_int. apply trunc_lt_int.
Qed.

Lemma results_lookup func r0 a i r :
  (r0 :: a) !! i = Some r ->
  results func (r0 :: a) !! i = Some (cast_to (outcome func r0) (outcome func r)).
Proof. intros Hr. by rewrite results_cons, list_lookup_fmap, Hr. Qed.

Lemma fitness_elem func (a : list (list Q)) m :
  m ∈ fitness func <$> a -> exists k r, a !! k = Some r /\ m = fitness func r.
Proof.
  intros (r & -> & Hr)%list_elem_of_fmap.
  apply list_elem_of_lookup in Hr as [k Hk]. by exists k, r.
Qed.

Lemma fitness_lookup_elem func (a : list (list Q)) (k : nat) r :
  a !! k = Some r -> fitness func r ∈ fitness func <$> a.
Proof. intros Hk. apply list_elem_of_fmap_2. by eapply list_elem_of_lookup_2. Qed.

Lemma min_of_exists (xs : list Q) : xs <> [] -> exists m, min_of xs m.
Proof.
  intros Hne. destruct (first_min_index_min _ _ (best_index_spec xs Hne)) as (m & _ & Hm).
  by exists m.
Qed.

(** ** [change_hm] never loses the best harmony *)

Section Improvement.

Variable self : HarmonySearch.

Lemma replaced_min_not_worse a b rows cols m m' :
  shape rows cols a -> shape rows cols b -> (0 < rows)%nat ->
  min_of (fitness (f self) <$> a) m ->
  min_of (fitness (f self) <$> replaced self a b) m' -> m' <= m.
Proof.
  intros Ha Hb Hrows Hm Hm'.
  assert (Hane : a <> []) by (by eapply shape_nonempty).
  assert (Hbne : b <> []) by (by eapply shape_nonempty).
  destruct (replaced_cases self a b Hane Hbne)
    as (wi & bi & ow & nb & ra & rb & _ & _ & Hmax & _ & How & Hnb & Hra & Hrb & Hcase).
  destruct Hcase as [[Hlt Hrep] | [Hge Hrep]]; rewrite Hrep in Hm'; cycle 1.
  { apply Qle_lteq. right. by eapply min_of_unique. }
  destruct Hm as [Hin Hleast]. destruct Hm' as [_ Hleast'].
  apply fitness_elem in Hin as (k & rk & Hk & ->).
  assert (Hrb' : fitness (f self) rb ∈ fitness (f self) <$> <[wi := rb]> a).
  { eapply fitness_lookup_elem. apply list_lookup_insert_eq. by eapply lookup_lt_Some. }
  destruct (decide (k = wi)) as [->|Hk'];
    [|apply Hleast'; eapply fitness_lookup_elem; by rewrite list_lookup_insert_ne].
  assert (rk = ra) as -> by congruence.
  destruct a as [|r0 tl]; [done|]. destruct b as [|rb0 tlb]; [done|].
  rewrite (results_lookup _ _ _ _ _ Hra) in How.
  rewrite (results_lookup _ _ _ _ _ Hrb) in Hnb.
  injection How as <-. injection Hnb as <-.
  destruct Hmax as (mx & Hmx & Hall & Hbefore).
  rewrite (results_lookup _ _ _ _ _ Hra) in Hmx. injection Hmx as <-.
  destruct (outcome (f self) r0) as [z|q] eqn:Hfirst.
  - assert (wi = 0%nat) as ->.
    { destruct wi as [|wi']; [done|]. exfalso.
      pose proof (Hbefore 0%nat _ ltac:(lia)
                    (results_lookup (f self) r0 tl 0 r0 eq_refl)) as Hlt0.
      rewrite Hfirst in Hlt0.
      assert (Hle : cast_to (PyInt z) (outcome (f self) ra)
                    <= cast_to (PyInt z) (PyInt z)).
      { apply cast_to_mono. rewrite <- Hfirst.
        apply Hleast, (fitness_lookup_elem _ (r0 :: tl) 0%nat r0 eq_refl). }
      lra. }
    injection Hra as <-. rewrite Hfirst in Hlt.
    apply cast_to_lt_int in Hlt.
    apply Qle_trans with (fitness (f self) rb); [by apply Hleast'|].
    unfold fitness at 2. rewrite Hfirst. by apply Qlt_le_weak.
  - destruct tl as [|r1 tl'].
    + destruct Ha as [<- _]. destruct Hb as [Hlen _].
      destruct tlb; [|done]. destruct wi; [|done]. destruct bi; [|done].
      injection Hra as <-. injection Hrb as <-.
      rewrite cast_to_self, Hfirst in Hlt. simpl in Hlt.
      apply Qle_trans with (fitness (f self) rb0); [by apply Hleast'|].
      unfold fitness. rewrite Hfirst. by apply Qlt_le_weak.
    + set (j := match wi with O => 1%nat | S _ => 0%nat end).
      assert (Hj : j <> wi) by (by destruct wi).
      assert (exists rj, (r0 :: r1 :: tl') !! j = Some rj) as [rj Hrj].
      { destruct wi; by eexists. }
      apply Qle_trans with (fitness (f self) rj).
      * apply Hleast'. eapply fitness_lookup_elem.
        by rewrite list_lookup_insert_ne.
      * assert (Hin : cast_to (PyFloat q) (outcome (f self) rj)
                      ∈ results (f self) (r0 :: r1 :: tl')).
        { eapply list_elem_of_lookup_2.
          rewrite (results_lookup _ _ _ _ _ Hrj). by rewrite Hfirst. }
        apply Hall in Hin. exact Hin.
Qed.

End Improvement.

Lemma sphere_returns_on a : returns_on sphere a.
Proof. intros r _. by eexists. Qed.

Lemma sphere_plain_values a : plain_values sphere a.
Proof. left. intros r v _ Hv. injection Hv as <-. by eexists. Qed.

Lemma sphere_plain_results cols : plain_results sphere cols.
Proof. left. intros r v _ Hv. injection Hv as <-. by eexists. Qed.

(** X4. [change_hm] needs rows of one width, an objective that returns on
    the rows of both memories (plain results), and at least one row in
    each; it does not need equally many rows.  It returns [old_hm]; of the arrays only
    [old_hm] can differ afterwards, the generator is untouched, and the
    objective has been called on the rows of [old_hm] and then on those of
    [new_hm].  [old_hm] keeps its shape, every row it holds is a row of the
    old or of the new memory, and at most one index has changed. *)
Theorem change_hm_changes_only_old_hm (self : HarmonySearch)
    old_hm new_hm h e p c a b n m cols :
  h !! old_hm = Some a -> h !! new_hm = Some b ->
  shape n cols a -> shape m cols b -> (0 < n)%nat -> (0 < m)%nat ->
  returns_on (f self) a -> returns_on (f self) b ->
  plain_values (f self) a -> plain_values (f self) b ->
  exists a',
    change_hm self old_hm new_hm (World h e p c) =
      (Ok old_hm, World (<[old_hm := a']> h) e p (c ++ a ++ b)) /\
    shape n cols a' /\
    (forall r, r ∈ a' -> r ∈ a \/ r ∈ b) /\
    (exists i, forall j, j <> i -> a' !! j = a !! j).
Proof.
  intros Hold Hnew Ha Hb Hn Hm Hfa Hfb _ _.
  exists (replaced self a b). split.
  { eapply change_hm_run; try done;
      [by eapply shape_nonempty | by eapply shape_nonempty | apply Ha | apply Hb]. }
  split; [eapply shape_replaced_rows; [done | apply Hb]|].
  split; [apply replaced_rows | apply replaced_one_index].
Qed.

Lemma change_hm_changes_only_old_hm_witness :
  exists a',
    change_hm (example_search 3) 0 1 (example_world [example_old; example_new]) =
      (Ok 0%nat, World (<[0%nat := a']> [example_old; example_new]) example_machine 0
                       ([] ++ example_old ++ example_new)) /\
    shape 2 2 a' /\
    (forall r, r ∈ a' -> r ∈ example_old \/ r ∈ example_new) /\
    (exists i, forall j, j <> i -> a' !! j = example_old !! j).
Proof.
  apply (change_hm_changes_only_old_hm (example_search 3) 0 1
           [example_old; example_new] example_machine 0 [] example_old example_new
           2 2 2);
    [reflexivity | reflexivity | apply shape_example_old | apply shape_example_new
    | lia | lia | apply sphere_returns_on | apply sphere_returns_on
    | apply sphere_plain_values | apply sphere_plain_values].
Defined.

(** X5. After [change_hm] the smallest fitness in the memory is at most the
    smallest fitness before the call: the best harmony is never lost, also
    where the stored results have been cast to integers (for an objective
    that returns on the rows, with plain results). *)
Theorem change_hm_min_not_worse (self : HarmonySearch)
    old_hm new_hm h e p c a b rows cols :
  h !! old_hm = Some a -> h !! new_hm = Some b ->
  shape rows cols a -> shape rows cols b -> (0 < rows)%nat ->
  returns_on (f self) a -> returns_on (f self) b ->
  plain_values (f self) a -> plain_values (f self) b ->
  exists w' a',
    change_hm self old_hm new_hm (World h e p c) = (Ok old_hm, w') /\
    heap w' !! old_hm = Some a' /\
    (exists m m', min_of (fitness (f self) <$> a) m /\
                  min_of (fitness (f self) <$> a') m') /\
    forall m m', min_of (fitness (f self) <$> a) m ->
                 min_of (fitness (f self) <$> a') m' -> m' <= m.
Proof.
  intros Hold Hnew Ha Hb Hrows Hfa Hfb _ _.
  exists (World (<[old_hm := replaced self a b]> h) e p (c ++ a ++ b)),
         (replaced self a b).
  split.
  { eapply change_hm_run; try done;
      [by eapply shape_nonempty | by eapply shape_nonempty | apply Ha | apply Hb]. }
  split; [apply list_lookup_insert_eq; by eapply lookup_lt_Some|].
  split.
  - destruct (min_of_exists (fitness (f self) <$> a)) as [m Hm].
    { intros Hnil%fmap_nil_inv. by eapply shape_nonempty in Hnil. }
    destruct (min_of_exists (fitness (f self) <$> replaced self a b)) as [m' Hm'].
    { intros Hnil%fmap_nil_inv.
      by eapply shape_nonempty in Hnil; [|by eapply shape_replaced|]. }
    by exists m, m'.
  - intros m m'. by eapply replaced_min_not_worse.
Qed.

Lemma change_hm_min_not_worse_witness :
  exists w' a',
    change_hm (example_search 3) 0 1 (example_world [example_old; example_new]) =
      (Ok 0%nat, w') /\
    heap w' !! 0%nat = Some a' /\
    (exists m m', min_of (fitness sphere <$> example_old) m /\
                  min_of (fitness sphere <$> a') m') /\
    forall m m', min_of (fitness sphere <$> example_old) m ->
                 min_of (fitness sphere <$> a') m' -> m' <= m.
Proof.
  apply (change_hm_min_not_worse (example_search 3) 0 1
           [example_old; example_new] example_machine 0 [] example_old example_new 2 2);
    [reflexivity | reflexivity | apply shape_example_old | apply shape_example_new
    | lia | apply sphere_returns_on | apply sphere_returns_on
    | apply sphere_plain_values | apply sphere_plain_values].
Defined.

(** ** [improvise] *)

Lemma improvised_rows_copy (self : HarmonySearch) e a :
  unit_samples e -> 1 <= hmcr self -> 1 <= par self ->
  forall p, improvised_rows self e p a = a.
Proof.
  intros He Hh Hp. induction a as [|r a IH]; intros p; [done|].
  cbn [improvised_rows]. rewrite IH. f_equal.
  unfold improvised_row, row_update.
  destruct (He (S p)) as [_ Hu]. destruct (He (S (S p))) as [_ Hu2].
  assert (Qltb (hmcr self) (rng_samples e (S p)) = false) as ->
    by (apply Qltb_ge; lra).
  assert (Qltb (par self) (rng_samples e (S (S p))) = false) as ->
    by (apply Qltb_ge; lra).
  done.
Qed.

(** X8. When the draw compared with [hmcr] for row [i] exceeds [hmcr], the
    row [improvise] returns at index [i] is a constant vector: all its
    coordinates hold one and the same value, whatever the row held before
    and whether or not it is shifted afterwards. *)
Theorem improvise_replaced_row_is_constant (self : HarmonySearch) hm h e p c a i r :
  finite_range (rand_min self) (rand_max self) = true ->
  finite_range (- bw self) (bw self) = true ->
  h !! hm = Some a -> a !! i = Some r ->
  hmcr self < rng_samples e (p + 4 * i + 1)%nat ->
  exists a' k,
    improvise self hm (World h e p c) =
      (Ok (length h), World (h ++ [a']) e (p + 4 * length a) c) /\
    a' !! i = Some (replicate (length r) k).
Proof.
  intros Hfin Hbw Hhm Hi Hu.
  apply Qltb_lt in Hu.
  replace (p + 4 * i + 1)%nat with (S (p + 4 * i)) in Hu by lia.
  exists (improvised_rows self e p a).
  exists (let v := rng_uniform e (p + 4 * i) (rand_min self) (rand_max self) in
          if Qltb (par self) (rng_samples e (S (S (p + 4 * i))))
          then float_add e v (rng_uniform e (S (S (S (p + 4 * i)))) (- bw self) (bw self))
          else v).
  split; [by apply improvise_run|].
  rewrite improvised_rows_lookup, Hi. cbn [fmap option_fmap option_map].
  unfold improvised_row, row_update. rewrite Hu.
  destruct (Qltb (par self) _); [|done].
  by rewrite fmap_replicate.
Qed.

Lemma improvise_replaced_row_is_constant_witness :
  exists a' k,
    improvise (example_search 3) 0 (example_world [example_old]) =
      (Ok 1%nat, World ([example_old] ++ [a']) example_machine 8 []) /\
    a' !! 0%nat = Some (replicate 2 k).
Proof.
  apply (improvise_replaced_row_is_constant (example_search 3) 0 [example_old]
           example_machine 0 [] example_old 0 [3; 4]);
    reflexivity.
Defined.

(** X9. With [hmcr >= 1] and [par >= 1] (draws of [rand()] lie in
    [[0, 1)]) and finite sampling ranges, [improvise] returns an exact copy
    of its input while still consuming four draws per row. *)
Theorem improvise_copies_when_rates_at_least_one (self : HarmonySearch) hm h e p c a :
  unit_samples e -> 1 <= hmcr self -> 1 <= par self ->
  finite_range (rand_min self) (rand_max self) = true ->
  finite_range (- bw self) (bw self) = true ->
  h !! hm = Some a ->
  improvise self hm (World h e p c) =
    (Ok (length h), World (h ++ [a]) e (p + 4 * length a) c).
Proof.
  intros He Hh Hp Hfin Hbw Hhm.
  rewrite (improvise_run self hm h e p c a Hfin Hbw Hhm).
  by rewrite improvised_rows_copy.
Qed.


Lemma improvise_copies_when_rates_at_least_one_witness :
  improvise (copying_search 3) 0 (example_world [example_old]) =
    (Ok 1%nat, World ([example_old] ++ [example_old]) example_machine 8 []).
Proof.
  apply (improvise_copies_when_rates_at_least_one (copying_search 3) 0
           [example_old] example_machine 0 [] example_old);
    [apply example_machine_unit | discriminate | discriminate
    | reflexivity | reflexivity | reflexivity].
Defined.

(** ** When the methods return *)

(** X2. On an allocated memory and for an objective with plain results,
    [eval] returns exactly when the memory has a row and the objective
    returns on every row, and then it returns the stored results.  On a memory without rows it raises [ValueError]; where
    the objective raises, the exception of the first such row propagates
    after the calls on the rows before it. *)
Theorem eval_returns_iff (self : HarmonySearch) hm w a :
  heap w !! hm = Some a -> plain_values (f self) a ->
  ((exists rs w', eval self hm w = (Ok rs, w')) <->
   a <> [] /\ returns_on (f self) a) /\
  (a <> [] -> returns_on (f self) a ->
   eval self hm w = (Ok (results (f self) a), with_calls (calls w ++ a) w)) /\
  (a = [] -> eval self hm w = (Raised ValueError, w)) /\
  (forall pre r post e,
     a = pre ++ r :: post -> returns_on (f self) pre -> f self r = Raised e ->
     eval self hm w = (Raised e, with_calls (calls w ++ pre ++ [r]) w)).
Proof.
  intros Hhm _. split; [split|split; [|split]].
  - intros (rs & w' & Hrun).
    by destruct (eval_ok_inv self hm w a rs w' Hhm Hrun) as (? & ? & _).
  - intros [Hne Hf]. eexists _, _. by apply eval_run.
  - intros Hne Hf. by apply eval_run.
  - intros ->. by apply eval_empty.
  - intros pre r post e -> Hpre Hr. unfold eval.
    erewrite bind_run by (by apply read_array_run).
    by apply apply_along_axis_1_raises.
Qed.

Lemma eval_returns_iff_witness :
  ((exists rs w', eval (example_search 3) 0 (example_world [example_old]) = (Ok rs, w')) <->
   example_old <> [] /\ returns_on sphere example_old) /\
  (example_old <> [] -> returns_on sphere example_old ->
   eval (example_search 3) 0 (example_world [example_old]) =
     (Ok (results sphere example_old),
      with_calls ([] ++ example_old) (example_world [example_old]))) /\
  (example_old = [] ->
   eval (example_search 3) 0 (example_world [example_old]) =
     (Raised ValueError, example_world [example_old])) /\
  (forall pre r post e,
     example_old = pre ++ r :: post -> returns_on sphere pre -> sphere r = Raised e ->
     eval (example_search 3) 0 (example_world [example_old]) =
       (Raised e, with_calls ([] ++ pre ++ [r]) (example_world [example_old]))).
Proof.
  apply (eval_returns_iff (example_search 3) 0 (example_world [example_old]) example_old);
    [reflexivity | apply sphere_plain_values].
Defined.

(** X3. With rows of one width in both memories and an objective with
    plain results, [change_hm] returns exactly when both memories have a
    row and the objective returns on every row of both. *)
Theorem change_hm_returns_iff (self : HarmonySearch) old_hm new_hm h e p c a b cols :
  h !! old_hm = Some a -> h !! new_hm = Some b ->
  Forall (fun r => length r = cols) a -> Forall (fun r => length r = cols) b ->
  plain_values (f self) a -> plain_values (f self) b ->
  (exists l w', change_hm self old_hm new_hm (World h e p c) = (Ok l, w')) <->
  a <> [] /\ b <> [] /\ returns_on (f self) a /\ returns_on (f self) b.
Proof.
  intros Hold Hnew Ha Hb _ _. split.
  - intros (l & w' & Hrun).
    by destruct (change_hm_ok_inv self old_hm new_hm h e p c a b cols l w'
                   Hold Hnew Ha Hb Hrun) as (_ & _ & ? & ? & ? & ?).
  - intros (Hane & Hbne & Hfa & Hfb). eexists _, _. by eapply change_hm_run.
Qed.

Lemma change_hm_returns_iff_witness :
  (exists l w',
     change_hm (example_search 3) 0 1 (example_world [example_old; []]) = (Ok l, w')) <->
  example_old <> [] /\ @nil (list Q) <> [] /\
  returns_on sphere example_old /\ returns_on sphere [].
Proof.
  apply (change_hm_returns_iff (example_search 3) 0 1 [example_old; []]
           example_machine 0 [] example_old [] 2);
    [reflexivity | reflexivity | apply shape_example_old | constructor
    | apply sphere_plain_values | apply sphere_plain_values].
Defined.

Lemma find_harmony_ok_inv (self : HarmonySearch) h e p c row w' :
  find_harmony self (World h e p c) = (Ok row, w') ->
  finite_range (rand_min self) (rand_max self) = true /\
  valid_shape (hms self) (d self) = true /\
  (0 < hms self)%Z /\
  ((0 < max_iter self)%Z -> finite_range (- bw self) (bw self) = true).
Proof.
  intros Hrun. unfold find_harmony in Hrun.
  apply bind_ok_inv in Hrun as (hm & w1 & Hgen & Hrun).
  apply generate_hm_ok_inv in Hgen as (Hfin & Hshape & Hhm & Hw1). subst hm w1.
  apply bind_ok_inv in Hrun as (rs & w2 & Hev & Hrun).
  eapply eval_ok_inv in Hev as (Hne & _ & Hrs & Hw2);
    [|simpl; by apply list_lookup_middle].
  subst rs w2.
  assert (Hhms : (0 < hms self)%Z).
  { destruct (Z.to_nat (hms self)) eqn:Hn; [done | lia]. }
  repeat split; [done | done | done |].
  intros Hiter. apply bind_ok_inv in Hrun as (vars & w3 & Hloop & _).
  unfold range in Hloop. rewrite length_seq in Hloop.
  destruct (Z.to_nat (max_iter self)) as [|n] eqn:Hn; [lia|].
  cbn [repeat_loop] in Hloop.
  apply bind_ok_inv in Hloop as (vars1 & w4 & Hbody & _).
  apply bind_ok_inv in Hbody as (new_hm & w5 & Himp & _).
  destruct (improvise_outcome self (length h) (h ++ [drawn_rows e (rand_min self)
              (rand_max self) p (Z.to_nat (hms self)) (Z.to_nat (d self))]) e
              (p + Z.to_nat (hms self) * Z.to_nat (d self))
              (c ++ drawn_rows e (rand_min self) (rand_max self) p
                      (Z.to_nat (hms self)) (Z.to_nat (d self))) _
              ltac:(by apply list_lookup_middle))
    as (out & a' & p' & Hout & _ & _ & Hraise).
  destruct (finite_range (- bw self) (bw self)) eqn:Hbw; [done|].
  rewrite (Hraise Hne ltac:(by right)) in Hout.
  assert (Hok : (Raised OverflowError, World ((h ++ [drawn_rows e (rand_min self)
              (rand_max self) p (Z.to_nat (hms self)) (Z.to_nat (d self))]) ++ [a'])
              e p' (c ++ drawn_rows e (rand_min self) (rand_max self) p
                      (Z.to_nat (hms self)) (Z.to_nat (d self))))
               = (Ok new_hm, w5)) by (rewrite <- Hout; exact Himp).
  done.
Qed.

(** X1. The constructor validates nothing.  For an objective that returns
    on every harmony of [d] entries, with plain results, [find_harmony]
    returns a harmony exactly when the sampling range is finite, NumPy
    allocates an [hms x d] array, [hms] is positive and, if an iteration
    runs, the shift range is finite.  A sampling range that is not finite
    raises [OverflowError], and a size NumPy refuses raises [ValueError],
    both before anything is allocated. *)
Theorem find_harmony_returns_iff (self : HarmonySearch) h e p c :
  defined_on (f self) (Z.to_nat (d self)) ->
  plain_results (f self) (Z.to_nat (d self)) ->
  ((exists row w', find_harmony self (World h e p c) = (Ok row, w')) <->
   finite_range (rand_min self) (rand_max self) = true /\
   valid_shape (hms self) (d self) = true /\
   (0 < hms self)%Z /\
   ((0 < max_iter self)%Z -> finite_range (- bw self) (bw self) = true)) /\
  (finite_range (rand_min self) (rand_max self) = false ->
   find_harmony self (World h e p c) = (Raised OverflowError, World h e p c)) /\
  (finite_range (rand_min self) (rand_max self) = true ->
   valid_shape (hms self) (d self) = false ->
   find_harmony self (World h e p c) = (Raised ValueError, World h e p c)).
Proof.
  intros Hf _. split; [split|split].
  - intros (row & w' & Hrun). by eapply find_harmony_ok_inv.
  - intros (Hfin & Hshape & Hhms & Hbw).
    destruct (find_harmony_run self h e p c Hfin Hbw Hshape Hhms Hf)
      as (row & h' & _ & Hfind & _).
    by eexists _, _.
  - intros Hfin. unfold find_harmony.
    by erewrite bind_raise by (by apply generate_hm_overflow).
  - intros Hfin Hshape. unfold find_harmony.
    by erewrite bind_raise by (by apply generate_hm_invalid_shape).
Qed.

Lemma find_harmony_returns_iff_witness :
  ((exists row w', find_harmony (example_search 3) (example_world []) = (Ok row, w')) <->
   finite_range 0 1 = true /\ valid_shape 2 2 = true /\ (0 < 2)%Z /\
   ((0 < 3)%Z -> finite_range (- (1 # 2)) (1 # 2) = true)) /\
  (finite_range 0 1 = false ->
   find_harmony (example_search 3) (example_world []) =
     (Raised OverflowError, example_world [])) /\
  (finite_range 0 1 = true -> valid_shape 2 2 = false ->
   find_harmony (example_search 3) (example_world []) =
     (Raised ValueError, example_world [])).
Proof.
  apply (find_harmony_returns_iff (example_search 3) [] example_machine 0 []);
    [apply sphere_float_valued_defined | apply sphere_plain_results].
Defined.

(** X13. When the rows of [new_hm] have a width different from those of
    [old_hm] (and not width one, which is broadcast), [change_hm] raises
    only on the replacing path.  The path is chosen by the stored results:
    if the smallest stored result of [new_hm] is strictly below the largest
    stored result of [old_hm], the row assignment raises [ValueError];
    otherwise [old_hm] is returned and no array has changed.  Either way
    the objective, which returns on the rows and has plain results, has
    been called on the rows of both memories. *)
Theorem change_hm_width_mismatch (self : HarmonySearch)
    old_hm new_hm h e p c a b ca cb :
  h !! old_hm = Some a -> h !! new_hm = Some b ->
  a <> [] -> b <> [] ->
  returns_on (f self) a -> returns_on (f self) b ->
  plain_values (f self) a -> plain_values (f self) b ->
  Forall (fun r => length r = ca) a -> Forall (fun r => length r = cb) b ->
  cb <> ca -> cb <> 1%nat ->
  exists ow nb,
    results (f self) a !! worst_index (results (f self) a) = Some ow /\
    results (f self) b !! best_index (results (f self) b) = Some nb /\
    (nb < ow ->
     change_hm self old_hm new_hm (World h e p c) =
       (Raised ValueError, World h e p (c ++ a ++ b))) /\
    (ow <= nb ->
     change_hm self old_hm new_hm (World h e p c) =
       (Ok old_hm, World h e p (c ++ a ++ b))).
Proof.
  intros Ha Hb Hnea Hneb Hreta Hretb _ _ Hca Hcb Hne Hne1.
  destruct (worst_row self a Hnea) as (ow & ra & How & Hra & _).
  destruct (best_row self b Hneb) as (nb & rb & Hnb & Hrb & _).
  exists ow, nb. split; [done|]. split; [done|].
  assert (Hrun : change_hm self old_hm new_hm (World h e p c) =
    ((if Qltb nb ow then
        src <- read_array new_hm ;;
        r <- index src (best_index (results (f self) b)) ;;
        dst <- read_array old_hm ;;
        r0 <- index dst (worst_index (results (f self) a)) ;;
        r' <- broadcast_to r (length r0) ;;
        write_array old_hm (<[worst_index (results (f self) a) := r']> dst)
      else ret tt) ;; ret old_hm) (World h e p (c ++ a ++ b))).
  { unfold change_hm.
    step ltac:(by apply (eval_run self old_hm (World h e p c) a)).
    step ltac:(by apply (eval_run self new_hm _ b)).
    step ltac:(apply np_argmax_worst; by apply results_nonempty).
    step ltac:(apply np_argmin_best; by apply results_nonempty).
    step ltac:(apply index_run; exact Hnb).
    step ltac:(apply index_run; exact How).
    unfold with_calls. simpl. by rewrite <- app_assoc. }
  rewrite Hrun. split.
  - intros Hlt. apply Qltb_lt in Hlt. rewrite Hlt.
    apply bind_raise.
    step ltac:(by apply read_array_run).
    step ltac:(by apply index_run).
    step ltac:(by apply read_array_run).
    step ltac:(by apply index_run).
    apply bind_raise. apply broadcast_to_raises.
    + rewrite (Forall_lookup_1 _ _ _ _ Hca Hra).
      by rewrite (Forall_lookup_1 _ _ _ _ Hcb Hrb).
    + by rewrite (Forall_lookup_1 _ _ _ _ Hcb Hrb).
  - intros Hge. apply Qltb_ge in Hge. by rewrite Hge.
Qed.

Lemma change_hm_width_mismatch_witness :
  exists ow nb,
    results sphere example_old !! worst_index (results sphere example_old) = Some ow /\
    results sphere [[0; 0; 1]] !! best_index (results sphere [[0; 0; 1]]) = Some nb /\
    (nb < ow ->
     change_hm (example_search 3) 0 1 (example_world [example_old; [[0; 0; 1]]]) =
       (Raised ValueError,
        World [example_old; [[0; 0; 1]]] example_machine 0
              ([] ++ example_old ++ [[0; 0; 1]]))) /\
    (ow <= nb ->
     change_hm (example_search 3) 0 1 (example_world [example_old; [[0; 0; 1]]]) =
       (Ok 0%nat,
        World [example_old; [[0; 0; 1]]] example_machine 0
              ([] ++ example_old ++ [[0; 0; 1]]))).
Proof.
  apply (change_hm_width_mismatch (example_search 3) 0 1
           [example_old; [[0; 0; 1]]] example_machine 0 []
           example_old [[0; 0; 1]] 2 3);
    [reflexivity | reflexivity | discriminate | discriminate
    | apply sphere_returns_on | apply sphere_returns_on
    | apply sphere_plain_values | apply sphere_plain_values
    | apply shape_example_old | by repeat constructor | lia | lia].
Defined.

(** ** Fitness over the iterations *)

Section Monotone.

Variable self : HarmonySearch.

Lemma max_of_exists (xs : list Q) : xs <> [] -> exists m, max_of xs m.
Proof.
  intros Hne. destruct (first_max_index_max _ _ (worst_index_spec xs Hne)) as (m & _ & Hm).
  by exists m.
Qed.

Lemma fitness_nonempty rows cols (a : list (list Q)) :
  shape rows cols a -> (0 < rows)%nat -> fitness (f self) <$> a <> [].
Proof. intros Ha Hrows Hnil%fmap_nil_inv. by eapply shape_nonempty in Hnil. Qed.

Lemma replaced_max_not_worse a b rows cols m m' :
  shape rows cols a -> shape rows cols b -> (0 < rows)%nat ->
  float_valued (f self) cols ->
  max_of (fitness (f self) <$> a) m ->
  max_of (fitness (f self) <$> replaced self a b) m' -> m' <= m.
Proof.
  intros Ha Hb Hrows Hf Hm Hm'.
  assert (Hane : a <> []) by (by eapply shape_nonempty).
  assert (Hbne : b <> []) by (by eapply shape_nonempty).
  destruct (replaced_cases self a b Hane Hbne)
    as (wi & bi & ow & nb & ra & rb & _ & _ & _ & _ & How & Hnb & Hra & Hrb & Hcase).
  destruct Hcase as [[Hlt Hrep] | [Hge Hrep]]; rewrite Hrep in Hm'; cycle 1.
  { apply Qle_lteq. right. by eapply max_of_unique. }
  rewrite (results_float (f self) cols a Hf ltac:(apply Ha)) in How.
  rewrite (results_float (f self) cols b Hf ltac:(apply Hb)) in Hnb.
  rewrite list_lookup_fmap, Hra in How. rewrite list_lookup_fmap, Hrb in Hnb.
  simpl in How, Hnb. injection How as <-. injection Hnb as <-.
  destruct Hm as [_ Hmost]. destruct Hm' as [Hin _].
  apply fitness_elem in Hin as (k & rk & Hk & ->).
  destruct (decide (k = wi)) as [->|Hk'].
  - rewrite list_lookup_insert_eq in Hk by (by eapply lookup_lt_Some).
    injection Hk as <-.
    apply Qle_trans with (fitness (f self) ra); [by apply Qlt_le_weak|].
    by eapply Hmost, fitness_lookup_elem.
  - rewrite list_lookup_insert_ne in Hk by done.
    by eapply Hmost, fitness_lookup_elem.
Qed.

Lemma memory_after_min_not_worse e rows cols n : forall p a m m',
  shape rows cols a -> (0 < rows)%nat ->
  min_of (fitness (f self) <$> a) m ->
  min_of (fitness (f self) <$> memory_after self e n p a) m' -> m' <= m.
Proof.
  induction n as [|n IH]; intros p a m m' Ha Hrows Hm Hm'.
  - apply Qle_lteq. right. by eapply min_of_unique.
  - cbn [memory_after] in Hm'.
    pose proof (shape_next_memory self e p _ _ _ Ha) as Hnext.
    destruct (min_of_exists (fitness (f self) <$> next_memory self e p a)) as [m1 Hm1];
      [by eapply fitness_nonempty|].
    apply Qle_trans with m1; [by eapply IH|].
    eapply replaced_min_not_worse; [exact Ha| |done|done|exact Hm1].
    by apply shape_improvised_rows.
Qed.

Lemma memory_after_max_not_worse e rows cols n : forall p a m m',
  shape rows cols a -> (0 < rows)%nat -> float_valued (f self) cols ->
  max_of (fitness (f self) <$> a) m ->
  max_of (fitness (f self) <$> memory_after self e n p a) m' -> m' <= m.
Proof.
  induction n as [|n IH]; intros p a m m' Ha Hrows Hf Hm Hm'.
  - apply Qle_lteq. right. by eapply max_of_unique.
  - cbn [memory_after] in Hm'.
    pose proof (shape_next_memory self e p _ _ _ Ha) as Hnext.
    destruct (max_of_exists (fitness (f self) <$> next_memory self e p a)) as [m1 Hm1];
      [by eapply fitness_nonempty|].
    apply Qle_trans with m1; [by eapply IH|].
    eapply replaced_max_not_worse; [exact Ha| |done|done|done|exact Hm1].
    by apply shape_improvised_rows.
Qed.

End Monotone.

(** X6. Over any number of iterations of the loop of [find_harmony]
    ([improvise], [change_hm], [eval]), with finite ranges and an objective
    that returns on every harmony with plain results, the smallest fitness
    in the memory never increases; for an objective that returns floats,
    so that no stored result is cast, neither does the largest. *)
Theorem search_loop_fitness_monotone (self : HarmonySearch) hm e rows cols n h p c a :
  finite_range (rand_min self) (rand_max self) = true ->
  finite_range (- bw self) (bw self) = true ->
  defined_on (f self) cols -> plain_results (f self) cols ->
  h !! hm = Some a -> shape rows cols a -> (0 < rows)%nat ->
  exists w' a',
    repeat_loop n (iteration self) (hm, results (f self) a) (World h e p c) =
      (Ok (hm, results (f self) a'), w') /\
    heap w' !! hm = Some a' /\
    (forall m m', min_of (fitness (f self) <$> a) m ->
                  min_of (fitness (f self) <$> a') m' -> m' <= m) /\
    (float_valued (f self) cols ->
     forall m m', max_of (fitness (f self) <$> a) m ->
                  max_of (fitness (f self) <$> a') m' -> m' <= m).
Proof.
  intros Hfin Hbw Hf _ Hhm Ha Hrows.
  destruct (search_loop_run self hm e rows cols n h p c a Hfin ltac:(done) Hf Hhm Ha Hrows)
    as (h' & Hloop & Hh' & _).
  eexists _, (memory_after self e n p a). split; [exact Hloop|].
  split; [exact Hh'|]. split.
  - intros m m'. by eapply memory_after_min_not_worse.
  - intros Hfloat m m'. by eapply memory_after_max_not_worse.
Qed.

Lemma search_loop_fitness_monotone_witness :
  exists w' a',
    repeat_loop 3 (iteration (example_search 3)) (0%nat, results sphere example_old)
        (example_world [example_old]) =
      (Ok (0%nat, results sphere a'), w') /\
    heap w' !! 0%nat = Some a' /\
    (forall m m', min_of (fitness sphere <$> example_old) m ->
                  min_of (fitness sphere <$> a') m' -> m' <= m) /\
    (float_valued sphere 2 ->
     forall m m', max_of (fitness sphere <$> example_old) m ->
                  max_of (fitness sphere <$> a') m' -> m' <= m).
Proof.
  apply (search_loop_fitness_monotone (example_search 3) 0 example_machine 2 2 3
           [example_old] 0 [] example_old);
    [reflexivity | reflexivity | apply sphere_float_valued_defined
    | apply sphere_plain_results | reflexivity | apply shape_example_old | lia].
Defined.

(** What [find_harmony] returns for an objective that returns floats: a row
    of smallest fitness of the memory after the last iteration. *)
Lemma find_harmony_returns_best (self : HarmonySearch) h e p c :
  (0 < hms self)%Z ->
  finite_range (rand_min self) (rand_max self) = true ->
  ((0 < max_iter self)%Z -> finite_range (- bw self) (bw self) = true) ->
  valid_shape (hms self) (d self) = true ->
  float_valued (f self) (Z.to_nat (d self)) ->
  let rows := Z.to_nat (hms self) in
  let cols := Z.to_nat (d self) in
  let n := Z.to_nat (max_iter self) in
  let a0 := drawn_rows e (rand_min self) (rand_max self) p rows cols in
  let final := memory_after self e n (p + rows * cols) a0 in
  exists row w',
    find_harmony self (World h e p c) = (Ok row, w') /\
    row ∈ final /\
    min_of (fitness (f self) <$> final) (fitness (f self) row).
Proof.
  intros Hhms Hfin Hbw Hshape Hf rows cols n a0 final.
  assert (Hrows : (0 < rows)%nat) by (unfold rows; lia).
  assert (Hfinal : shape rows cols final)
    by (apply shape_memory_after, shape_drawn_rows).
  destruct (find_harmony_run self h e p c Hfin Hbw Hshape Hhms
              (float_valued_defined_on _ _ Hf))
    as (row & h' & _ & Hfind & _ & _ & _ & Hrow).
  fold rows cols n a0 final in Hrow.
  rewrite (results_float (f self) cols final Hf ltac:(apply Hfinal)) in Hrow.
  exists row. eexists. split; [exact Hfind|].
  split; [by eapply list_elem_of_lookup_2|].
  destruct (first_min_index_min _ _
              (best_index_spec _ (fitness_nonempty self rows cols final Hfinal Hrows)))
    as (m & Hm & Hmin).
  rewrite list_lookup_fmap, Hrow in Hm. simpl in Hm. by injection Hm as <-.
Qed.

(** X7. For an objective that returns floats, the harmony [find_harmony]
    returns has a fitness at most that of every harmony of the memory
    [generate_hm] created at the start. *)
Theorem find_harmony_not_worse_than_initial (self : HarmonySearch) h e p c :
  (0 < hms self)%Z ->
  finite_range (rand_min self) (rand_max self) = true ->
  ((0 < max_iter self)%Z -> finite_range (- bw self) (bw self) = true) ->
  valid_shape (hms self) (d self) = true ->
  float_valued (f self) (Z.to_nat (d self)) ->
  exists row w',
    find_harmony self (World h e p c) = (Ok row, w') /\
    forall r, r ∈ drawn_rows e (rand_min self) (rand_max self) p
                    (Z.to_nat (hms self)) (Z.to_nat (d self)) ->
      fitness (f self) row <= fitness (f self) r.
Proof.
  intros Hhms Hfin Hbw Hshape Hf.
  destruct (find_harmony_returns_best self h e p c Hhms Hfin Hbw Hshape Hf)
    as (row & w' & Hfind & _ & Hmin).
  exists row, w'. split; [done|]. intros r Hr.
  set (a0 := drawn_rows e (rand_min self) (rand_max self) p
               (Z.to_nat (hms self)) (Z.to_nat (d self))) in *.
  assert (Ha0 : shape (Z.to_nat (hms self)) (Z.to_nat (d self)) a0)
    by apply shape_drawn_rows.
  destruct (min_of_exists (fitness (f self) <$> a0)) as [m0 Hm0];
    [eapply fitness_nonempty; [done|lia]|].
  apply Qle_trans with m0.
  - eapply memory_after_min_not_worse; [exact Ha0 | lia | exact Hm0 | exact Hmin].
  - apply Hm0. apply list_elem_of_fmap_2, Hr.
Qed.

Lemma find_harmony_not_worse_than_initial_witness :
  exists row w',
    find_harmony (example_search 3) (example_world []) = (Ok row, w') /\
    forall r, r ∈ drawn_rows example_machine 0 1 0 2 2 ->
      fitness sphere row <= fitness sphere r.
Proof.
  apply (find_harmony_not_worse_than_initial (example_search 3) [] example_machine 0 []);
    [reflexivity | reflexivity | reflexivity | reflexivity | apply sphere_float_valued].
Defined.

Lemma memory_after_copy_rows (self : HarmonySearch) e n :
  unit_samples e -> 1 <= hmcr self -> 1 <= par self ->
  forall p a r, r ∈ memory_after self e n p a -> r ∈ a.
Proof.
  intros He Hh Hp. induction n as [|n IH]; intros p a r Hr; [done|].
  cbn [memory_after] in Hr. apply IH in Hr.
  unfold next_memory in Hr. rewrite improvised_rows_copy in Hr by done.
  by apply replaced_rows in Hr as [?|?].
Qed.

(** X10. With [hmcr >= 1] and [par >= 1] the search only copies rows
    around: for an objective that returns floats, [find_harmony] returns a
    row of the initially generated memory, one of smallest fitness there,
    for any [max_iter]. *)
Theorem find_harmony_returns_initial_best (self : HarmonySearch) h e p c :
  unit_samples e -> 1 <= hmcr self -> 1 <= par self ->
  (0 < hms self)%Z ->
  finite_range (rand_min self) (rand_max self) = true ->
  ((0 < max_iter self)%Z -> finite_range (- bw self) (bw self) = true) ->
  valid_shape (hms self) (d self) = true ->
  float_valued (f self) (Z.to_nat (d self)) ->
  let a0 := drawn_rows e (rand_min self) (rand_max self) p
              (Z.to_nat (hms self)) (Z.to_nat (d self)) in
  exists row w',
    find_harmony self (World h e p c) = (Ok row, w') /\
    row ∈ a0 /\
    min_of (fitness (f self) <$> a0) (fitness (f self) row).
Proof.
  intros He Hh Hp Hhms Hfin Hbw Hshape Hf a0.
  destruct (find_harmony_returns_best self h e p c Hhms Hfin Hbw Hshape Hf)
    as (row & w' & Hfind & Hin & Hmin).
  fold a0 in Hin, Hmin.
  exists row, w'. split; [done|].
  apply (memory_after_copy_rows self e _ He Hh Hp) in Hin as Hin0.
  split; [done|]. split; [by apply list_elem_of_fmap_2|].
  intros y Hy.
  assert (Ha0 : shape (Z.to_nat (hms self)) (Z.to_nat (d self)) a0)
    by apply shape_drawn_rows.
  destruct (min_of_exists (fitness (f self) <$> a0)) as [m0 Hm0];
    [eapply fitness_nonempty; [done|lia]|].
  apply Qle_trans with m0; [|by apply Hm0].
  eapply memory_after_min_not_worse; [exact Ha0 | lia | exact Hm0 | exact Hmin].
Qed.

Lemma find_harmony_returns_initial_best_witness :
  exists row w',
    find_harmony (copying_search 3) (example_world []) = (Ok row, w') /\
    row ∈ drawn_rows example_machine 0 1 0 2 2 /\
    min_of (fitness sphere <$> drawn_rows example_machine 0 1 0 2 2) (fitness sphere row).
Proof.
  apply (find_harmony_returns_initial_best (copying_search 3) [] example_machine 0 []);
    [apply example_machine_unit | discriminate | discriminate | reflexivity
    | reflexivity | reflexivity | reflexivity | apply sphere_float_valued].
Defined.

(** X12. A [max_iter <= 0], negative values included, is accepted: the loop
    body never runs and the shift range is never used.  For an objective
    that returns on every harmony of [d] entries, with plain results, the
    world afterwards is the one [generate_hm] left, with the rows of the
    new memory added to the record of calls, and the result is the row of
    that memory at the first index of smallest stored result. *)
Theorem find_harmony_nonpositive_budget (self : HarmonySearch) h e p c :
  (max_iter self <= 0)%Z -> (0 < hms self)%Z ->
  finite_range (rand_min self) (rand_max self) = true ->
  valid_shape (hms self) (d self) = true ->
  defined_on (f self) (Z.to_nat (d self)) ->
  plain_results (f self) (Z.to_nat (d self)) ->
  let rows := Z.to_nat (hms self) in
  let cols := Z.to_nat (d self) in
  let a0 := drawn_rows e (rand_min self) (rand_max self) p rows cols in
  exists best_i row,
    find_harmony self (World h e p c) =
      (Ok row, World (h ++ [a0]) e (p + rows * cols) (c ++ a0)) /\
    first_min_index (results (f self) a0) best_i /\
    a0 !! best_i = Some row.
Proof.
  intros Hiter Hhms Hfin Hshape Hf _ rows cols a0.
  assert (Hrows : (0 < rows)%nat) by (unfold rows; lia).
  assert (Ha0 : shape rows cols a0) by apply shape_drawn_rows.
  destruct (find_harmony_run self h e p c Hfin ltac:(lia) Hshape Hhms Hf)
    as (row & h' & Hloop & Hfind & _ & _ & _ & Hrow).
  replace (Z.to_nat (max_iter self)) with 0%nat in Hloop, Hfind, Hrow by lia.
  cbn [repeat_loop memory_after calls_during] in Hloop, Hfind, Hrow.
  fold rows cols a0 in Hloop, Hfind, Hrow.
  unfold ret in Hloop. injection Hloop as Hh'.
  exists (best_index (results (f self) a0)), row.
  split. { rewrite Hfind, <- Hh'. do 2 f_equal; [lia | by rewrite app_nil_r]. }
  split; [|done].
  apply best_index_spec, results_nonempty. by eapply shape_nonempty.
Qed.

Lemma find_harmony_nonpositive_budget_witness :
  exists best_i row,
    find_harmony (example_search (-5)) (example_world []) =
      (Ok row, World ([] ++ [drawn_rows example_machine 0 1 0 2 2]) example_machine 4
                     ([] ++ drawn_rows example_machine 0 1 0 2 2)) /\
    first_min_index (results sphere (drawn_rows example_machine 0 1 0 2 2)) best_i /\
    drawn_rows example_machine 0 1 0 2 2 !! best_i = Some row.
Proof.
  apply (find_harmony_nonpositive_budget (example_search (-5)) [] example_machine 0 []);
    [discriminate | reflexivity | reflexivity | reflexivity
    | apply sphere_float_valued_defined | apply sphere_plain_results].
Defined.

(** ** Objectives that return floats

    Where every result of the objective is a float nothing is cast, and the
    methods do what their docstrings say. *)

(** X14. For an objective that returns a float on every row, [eval] of a
    memory with at least one row returns a vector with one entry per row,
    the entry at index [i] being the fitness of row [i]; the objective has
    been called on the rows in order, once each. *)
Theorem eval_alignment (self : HarmonySearch) hm w a cols :
  heap w !! hm = Some a -> (1 <= length a)%nat ->
  Forall (fun r => length r = cols) a -> float_valued (f self) cols ->
  exists fs,
    eval self hm w = (Ok fs, with_calls (calls w ++ a) w) /\
    length fs = length a /\
    forall i r, a !! i = Some r ->
      exists q, f self r = Ok (PyFloat q) /\ fs !! i = Some q.
Proof.
  intros Ha Hlen Hcols Hf. exists (fitness (f self) <$> a). split; [|split].
  - rewrite <- (results_float (f self) cols a Hf Hcols).
    apply eval_run; [done | intros ->; simpl in Hlen; lia
                    | by eapply float_valued_returns_on].
  - by rewrite length_fmap.
  - intros i r Hi. rewrite list_lookup_fmap, Hi. simpl.
    destruct (Hf r (Forall_lookup_1 _ _ _ _ Hcols Hi)) as [q Hq].
    exists q. split; [done|]. unfold fitness, outcome. by rewrite Hq.
Qed.

Lemma eval_alignment_witness :
  exists fs,
    eval (example_search 3) 0 (example_world [example_old]) =
      (Ok fs, with_calls ([] ++ example_old) (example_world [example_old])) /\
    length fs = length example_old /\
    forall i r, example_old !! i = Some r ->
      exists q, sphere r = Ok (PyFloat q) /\ fs !! i = Some q.
Proof.
  apply (eval_alignment (example_search 3) 0 (example_world [example_old]) example_old 2);
    [reflexivity | simpl; lia | apply shape_example_old | apply sphere_float_valued].
Defined.

Section FloatSelection.

Variable self : HarmonySearch.
Variables (rows cols : nat) (a b : list (list Q)).
Hypothesis Ha : shape rows cols a.
Hypothesis Hb : shape rows cols b.
Hypothesis Hrows : (0 < rows)%nat.
Hypothesis Hf : float_valued (f self) cols.

Lemma replaced_cases_float :
  exists wi bi ra rb,
    first_max_index (fitness (f self) <$> a) wi /\
    first_min_index (fitness (f self) <$> b) bi /\
    a !! wi = Some ra /\ b !! bi = Some rb /\
    max_of (fitness (f self) <$> a) (fitness (f self) ra) /\
    min_of (fitness (f self) <$> b) (fitness (f self) rb) /\
    ((fitness (f self) rb < fitness (f self) ra /\
      replaced self a b = <[wi := rb]> a) \/
     (fitness (f self) ra <= fitness (f self) rb /\ replaced self a b = a)).
Proof.
  destruct (replaced_cases self a b) as
    (wi & bi & ow & nb & ra & rb & _ & _ & Hmax & Hmin & How & Hnb & Hra & Hrb & Hcase);
    [by eapply shape_nonempty | by eapply shape_nonempty |].
  rewrite (results_float (f self) cols a Hf ltac:(apply Ha)) in Hmax, How.
  rewrite (results_float (f self) cols b Hf ltac:(apply Hb)) in Hmin, Hnb.
  rewrite list_lookup_fmap, Hra in How. rewrite list_lookup_fmap, Hrb in Hnb.
  simpl in How, Hnb. injection How as <-. injection Hnb as <-.
  exists wi, bi, ra, rb. do 4 (split; [done|]).
  split; [|split; [|done]].
  - destruct (first_max_index_max _ _ Hmax) as (m & Hm & Hmm).
    rewrite list_lookup_fmap, Hra in Hm. simpl in Hm. by injection Hm as <-.
  - destruct (first_min_index_min _ _ Hmin) as (m & Hm & Hmm).
    rewrite list_lookup_fmap, Hrb in Hm. simpl in Hm. by injection Hm as <-.
Qed.

End FloatSelection.

(** X15. For an objective that returns floats, after [change_hm] the
    largest fitness in the memory is at most the largest fitness of the
    memory before the call. *)
Theorem change_hm_max_not_worse (self : HarmonySearch)
    old_hm new_hm h e p c a b rows cols :
  h !! old_hm = Some a -> h !! new_hm = Some b ->
  shape rows cols a -> shape rows cols b -> (0 < rows)%nat ->
  float_valued (f self) cols ->
  exists w' a',
    change_hm self old_hm new_hm (World h e p c) = (Ok old_hm, w') /\
    heap w' !! old_hm = Some a' /\
    (exists m m', max_of (fitness (f self) <$> a) m /\
                  max_of (fitness (f self) <$> a') m') /\
    forall m m', max_of (fitness (f self) <$> a) m ->
                 max_of (fitness (f self) <$> a') m' -> m' <= m.
Proof.
  intros Hold Hnew Ha Hb Hrows Hf.
  exists (World (<[old_hm := replaced self a b]> h) e p (c ++ a ++ b)),
         (replaced self a b).
  split.
  { eapply change_hm_run; try done;
      [ by eapply shape_nonempty | by eapply shape_nonempty
      | eapply float_valued_returns_on; [done | apply Ha]
      | eapply float_valued_returns_on; [done | apply Hb]
      | apply Ha | apply Hb ]. }
  split; [apply list_lookup_insert_eq; by eapply lookup_lt_Some|].
  split.
  - destruct (max_of_exists (fitness (f self) <$> a)) as [m Hm];
      [by eapply fitness_nonempty|].
    destruct (max_of_exists (fitness (f self) <$> replaced self a b)) as [m' Hm'];
      [eapply fitness_nonempty; [by eapply shape_replaced | done]|].
    by exists m, m'.
  - intros m m'. by eapply replaced_max_not_worse.
Qed.

Lemma change_hm_max_not_worse_witness :
  exists w' a',
    change_hm (example_search 3) 0 1 (example_world [example_old; example_new]) =
      (Ok 0%nat, w') /\
    heap w' !! 0%nat = Some a' /\
    (exists m m', max_of (fitness sphere <$> example_old) m /\
                  max_of (fitness sphere <$> a') m') /\
    forall m m', max_of (fitness sphere <$> example_old) m ->
                 max_of (fitness sphere <$> a') m' -> m' <= m.
Proof.
  apply (change_hm_max_not_worse (example_search 3) 0 1
           [example_old; example_new] example_machine 0 [] example_old example_new 2 2);
    [reflexivity | reflexivity | apply shape_example_old | apply shape_example_new
    | lia | apply sphere_float_valued].
Defined.

(** X16. For an objective that returns floats: when the smallest fitness in
    [new_hm] is strictly below the largest fitness in [old_hm], [change_hm]
    overwrites exactly one row of [old_hm], the first row of largest
    fitness, with the first row of smallest fitness of [new_hm]; that row
    changes and every other row, every other array and the generator are
    as before. *)
Theorem change_hm_replaces_worst (self : HarmonySearch)
    old_hm new_hm h e p c a b rows cols m_new m_old :
  h !! old_hm = Some a -> h !! new_hm = Some b ->
  shape rows cols a -> shape rows cols b -> (0 < rows)%nat ->
  float_valued (f self) cols ->
  min_of (fitness (f self) <$> b) m_new -> max_of (fitness (f self) <$> a) m_old ->
  m_new < m_old ->
  exists wi bi ra rb,
    first_max_index (fitness (f self) <$> a) wi /\
    first_min_index (fitness (f self) <$> b) bi /\
    a !! wi = Some ra /\ b !! bi = Some rb /\
    change_hm self old_hm new_hm (World h e p c) =
      (Ok old_hm, World (<[old_hm := <[wi := rb]> a]> h) e p (c ++ a ++ b)) /\
    <[wi := rb]> a !! wi = Some rb /\ rb <> ra /\
    forall i, i <> wi -> <[wi := rb]> a !! i = a !! i.
Proof.
  intros Hold Hnew Ha Hb Hrows Hf Hmin Hmax Hlt.
  destruct (replaced_cases_float self rows cols a b Ha Hb Hrows Hf)
    as (wi & bi & ra & rb & Hwi & Hbi & Hra & Hrb & Hramax & Hrbmin & Hcase).
  pose proof (max_of_unique _ _ _ Hmax Hramax) as Hmo.
  pose proof (min_of_unique _ _ _ Hmin Hrbmin) as Hmn.
  assert (Hbetter : fitness (f self) rb < fitness (f self) ra) by lra.
  exists wi, bi, ra, rb. do 4 (split; [done|]).
  destruct Hcase as [[_ Hrep]|[Hge _]]; [|lra].
  split; [|split; [|split]].
  - rewrite <- Hrep. eapply change_hm_run; try done;
      [ by eapply shape_nonempty | by eapply shape_nonempty
      | eapply float_valued_returns_on; [done | apply Ha]
      | eapply float_valued_returns_on; [done | apply Hb]
      | apply Ha | apply Hb ].
  - apply list_lookup_insert_eq. by eapply lookup_lt_Some.
  - intros ->. lra.
  - intros i Hi. by apply list_lookup_insert_ne.
Qed.

Lemma change_hm_replaces_worst_witness :
  exists wi bi ra rb,
    first_max_index (fitness sphere <$> example_old) wi /\
    first_min_index (fitness sphere <$> example_new) bi /\
    example_old !! wi = Some ra /\ example_new !! bi = Some rb /\
    change_hm (example_search 3) 0 1 (example_world [example_old; example_new]) =
      (Ok 0%nat,
       World (<[0%nat := <[wi := rb]> example_old]> [example_old; example_new])
             example_machine 0 ([] ++ example_old ++ example_new)) /\
    <[wi := rb]> example_old !! wi = Some rb /\ rb <> ra /\
    forall i, i <> wi -> <[wi := rb]> example_old !! i = example_old !! i.
Proof.
  apply (change_hm_replaces_worst (example_search 3) 0 1
           [example_old; example_new] example_machine 0 [] example_old example_new
           2 2 1 25);
    [ reflexivity | reflexivity | apply shape_example_old | apply shape_example_new
    | lia | apply sphere_float_valued
    | apply (min_of_check _ 1%nat); reflexivity
    | apply (max_of_check _ 0%nat); reflexivity
    | reflexivity ].
Defined.

(** X17. For an objective that returns floats: when every harmony of
    [new_hm] has a fitness at least the largest fitness of [old_hm],
    equality included, [change_hm] returns [old_hm] and leaves every array,
    the contents of [old_hm] among them, and the generator as they were. *)
Theorem change_hm_keeps_memory (self : HarmonySearch)
    old_hm new_hm h e p c a b rows cols m_old :
  h !! old_hm = Some a -> h !! new_hm = Some b ->
  shape rows cols a -> shape rows cols b -> (0 < rows)%nat ->
  float_valued (f self) cols ->
  max_of (fitness (f self) <$> a) m_old ->
  (forall r, r ∈ b -> m_old <= fitness (f self) r) ->
  change_hm self old_hm new_hm (World h e p c) =
    (Ok old_hm, World h e p (c ++ a ++ b)).
Proof.
  intros Hold Hnew Ha Hb Hrows Hf Hmax Hall.
  destruct (replaced_cases_float self rows cols a b Ha Hb Hrows Hf)
    as (wi & bi & ra & rb & _ & _ & Hra & Hrb & Hramax & _ & Hcase).
  pose proof (max_of_unique _ _ _ Hmax Hramax) as Hmo.
  pose proof (Hall rb ltac:(by eapply list_elem_of_lookup_2)) as Hrbge.
  destruct Hcase as [[Hlt _]|[_ Hrep]]; [lra|].
  erewrite change_hm_run; try done;
    [ by rewrite Hrep, list_insert_id
    | by eapply shape_nonempty | by eapply shape_nonempty
    | eapply float_valued_returns_on; [done | apply Ha]
    | eapply float_valued_returns_on; [done | apply Hb]
    | apply Ha | apply Hb ].
Qed.

Lemma change_hm_keeps_memory_witness :
  change_hm (example_search 3) 0 1 (example_world [example_old; example_tie]) =
    (Ok 0%nat, World [example_old; example_tie] example_machine 0
                     ([] ++ example_old ++ example_tie)).
Proof.
  apply (change_hm_keeps_memory (example_search 3) 0 1
           [example_old; example_tie] example_machine 0 [] example_old example_tie
           2 2 25);
    [ reflexivity | reflexivity | apply shape_example_old | apply shape_example_tie
    | lia | apply sphere_float_valued
    | apply (max_of_check _ 0%nat); reflexivity | ].
  intros r Hr. unfold example_tie in Hr.
  apply elem_of_cons in Hr as [->|Hr]; [by vm_compute|].
  apply list_elem_of_singleton in Hr as ->. by vm_compute.
Defined.

(** X18. What [improvise] does: with finite sampling and shift ranges it
    reads four draws per row, in row order, and decides once per row.  Row
    [i] of the result is row [i] of the input with all its coordinates
    replaced by the one value drawn at position [p + 4 i] when the draw at
    [p + 4 i + 1] exceeds [hmcr], and then all its coordinates shifted by
    the one offset drawn at position [p + 4 i + 3] when the draw at
    [p + 4 i + 2] exceeds [par]. *)
Theorem improvise_decides_per_row (self : HarmonySearch) hm h e p c a :
  finite_range (rand_min self) (rand_max self) = true ->
  finite_range (- bw self) (bw self) = true ->
  h !! hm = Some a ->
  exists a',
    improvise self hm (World h e p c) =
      (Ok (length h), World (h ++ [a']) e (p + 4 * length a) c) /\
    length a' = length a /\
    forall i r, a !! i = Some r ->
      a' !! i =
        Some (row_update self e
                (rng_uniform e (p + 4 * i) (rand_min self) (rand_max self))
                (rng_samples e (p + 4 * i + 1))
                (rng_samples e (p + 4 * i + 2))
                (rng_uniform e (p + 4 * i + 3) (- bw self) (bw self)) r).
Proof.
  intros Hfin Hbw Hhm. exists (improvised_rows self e p a).
  split; [by apply improvise_run|]. split; [apply length_improvised_rows|].
  intros i r Hi. rewrite improvised_rows_lookup, Hi.
  cbn [fmap option_fmap option_map]. unfold improvised_row.
  by replace (p + 4 * i + 1)%nat with (S (p + 4 * i)) by lia;
     replace (p + 4 * i + 2)%nat with (S (S (p + 4 * i))) by lia;
     replace (p + 4 * i + 3)%nat with (S (S (S (p + 4 * i)))) by lia.
Qed.

Lemma improvise_decides_per_row_witness :
  exists a',
    improvise (example_search 3) 0 (example_world [example_old]) =
      (Ok 1%nat, World ([example_old] ++ [a']) example_machine 8 []) /\
    length a' = 2%nat /\
    forall i r, example_old !! i = Some r ->
      a' !! i =
        Some (row_update (example_search 3) example_machine
                (rng_uniform example_machine (0 + 4 * i) 0 1)
                (rng_samples example_machine (0 + 4 * i + 1))
                (rng_samples example_machine (0 + 4 * i + 2))
                (rng_uniform example_machine (0 + 4 * i + 3) (- (1 # 2)) (1 # 2)) r).
Proof.
  apply (improvise_decides_per_row (example_search 3) 0 [example_old]
           example_machine 0 [] example_old);
    reflexivity.
Defined.
